(** * Binary Merkle tree over BN254 field elements, and the position-routed
      root recomputation of the membership circuit.

    Shallow embedding of
      - [hash_utils.py]   ([FIELD_MODULUS], [sha256_to_field], [merkle_hash2]),
      - [merkle_tree.py]  ([field], [MerkleTree]: [__init__], [_build_tree],
                           [root], [opening]),
      - [zk_merkle.py]    ([merkle_opening_circuit]).

    Python integers are [Z]; Python lists are [list]; a raised exception is
    the [Raise] outcome of [result].  The tree is parametric in the digest
    function ([hashlib.sha256]; SHA-256 itself is given in [SHA256]), the
    circuit in the value type and the operations of the proving backend
    ([LinComb], the Poseidon gadget, subtraction, [assert_zero]); what the
    circuit asks of the backend is kept in a record of events. *)

From Equations Require Import Equations.
From Stdlib Require Import ZArith List Lia Bool.
From Stdlib.Strings Require Import Byte.
Import ListNotations.
Open Scope Z_scope.

Set Implicit Arguments.

(** ** Python exceptions and the error monad *)

(** The two assertion messages of [merkle_opening_circuit]. *)
Inductive assert_msg : Type :=
| LengthMismatch (n_siblings n_positions : Z)
| InvalidPosition (h : Z) (pos : Z).

Inductive exn : Type :=
| ValueError
| IndexError
| OverflowError
| AssertionError (msg : assert_msg).

Inductive result (A : Type) : Type :=
| Ok (a : A)
| Raise (e : exn).
Arguments Ok {A} a.
Arguments Raise {A} e.

Definition bind {A B} (m : result A) (k : A -> result B) : result B :=
  match m with
  | Ok a => k a
  | Raise e => Raise e
  end.

Declare Scope py_scope.
Delimit Scope py_scope with py.
Notation "x <- m ;; k" := (bind m (fun x => k))
  (at level 61, m at next level, right associativity) : py_scope.
Notation "' pat <- m ;; k" := (bind m (fun x => match x with pat => k end))
  (at level 61, pat pattern, m at next level, right associativity) : py_scope.
Open Scope py_scope.

(** [for x in xs: s = body(s, x)], stopping at the first exception. *)
Fixpoint for_each {A S} (xs : list A) (body : S -> A -> result S) (s : S)
  : result S :=
  match xs with
  | [] => Ok s
  | x :: xs' => s' <- body s x ;; for_each xs' body s'
  end.

(** Remembering the equation of a case analysis (used for the guard and the
    body of a [while] loop). *)
Definition inspect {A} (a : A) : {b | a = b} := exist _ a eq_refl.

(** ** Python list primitives *)

Definition len {A} (l : list A) : Z := Z.of_nat (length l).

(** [l[i]]: a negative index counts from the end; out of range raises
    [IndexError]. *)
Definition getitem {A} (l : list A) (i : Z) : result A :=
  let j := if i <? 0 then i + len l else i in
  if (j <? 0) || (j >=? len l) then Raise IndexError
  else match nth_error l (Z.to_nat j) with
       | Some a => Ok a
       | None => Raise IndexError
       end.

(** [range(n)] *)
Definition range (n : Z) : list Z := map Z.of_nat (seq 0 (Z.to_nat n)).

(** [range(0, n, 2)] *)
Definition range_step2 (n : Z) : list Z :=
  map (fun k => 2 * Z.of_nat k) (seq 0 (Z.to_nat ((n + 1) / 2))).

(** The byte of value [z mod 256]. *)
Definition byte_of_Z (z : Z) : byte :=
  match Byte.of_N (Z.to_N (z mod 256)) with
  | Some b => b
  | None => x00
  end.

(** [int.to_bytes(length, byteorder="big", signed=False)]: raises
    [OverflowError] on a negative integer and on one that does not fit. *)
Definition to_bytes (length : nat) (v : Z) : result (list byte) :=
  if v <? 0 then Raise OverflowError
  else if v >=? 256 ^ Z.of_nat length then Raise OverflowError
  else Ok (map (fun k => byte_of_Z (v / 256 ^ Z.of_nat k)) (rev (seq 0 length))).

(** [int.from_bytes(bs, byteorder="big")] *)
Definition from_bytes (bs : list byte) : Z :=
  fold_left (fun acc b => acc * 256 + Z.of_N (Byte.to_N b)) bs 0.

(** ** [hashlib.sha256]

    SHA-256 as FIPS 180-4 defines it, on byte strings.  The tree definitions
    below take the digest function as a variable and the theorems hold for
    every digest function; this one is what the program runs with, and is
    used to evaluate the definitions on concrete inputs. *)

Module SHA256.

Definition mask32 : Z := 2 ^ 32 - 1.
Definition add32 (x y : Z) : Z := (x + y) mod 2 ^ 32.
Definition rotr (n x : Z) : Z :=
  Z.lor (Z.shiftr x n) (Z.land (Z.shiftl x (32 - n)) mask32).
Definition Ch (x y z : Z) : Z :=
  Z.lxor (Z.land x y) (Z.land (Z.lxor x mask32) z).
Definition Maj (x y z : Z) : Z :=
  Z.lxor (Z.lxor (Z.land x y) (Z.land x z)) (Z.land y z).
Definition Sigma0 (x : Z) : Z :=
  Z.lxor (Z.lxor (rotr 2 x) (rotr 13 x)) (rotr 22 x).
Definition Sigma1 (x : Z) : Z :=
  Z.lxor (Z.lxor (rotr 6 x) (rotr 11 x)) (rotr 25 x).
Definition sigma0 (x : Z) : Z :=
  Z.lxor (Z.lxor (rotr 7 x) (rotr 18 x)) (Z.shiftr x 3).
Definition sigma1 (x : Z) : Z :=
  Z.lxor (Z.lxor (rotr 17 x) (rotr 19 x)) (Z.shiftr x 10).

(** The constants are fractional parts of roots of the first primes. *)
Definition is_prime (n : nat) : bool :=
  forallb (fun d => negb (Nat.eqb (n mod d) 0)) (seq 2 (n - 2)).

Definition primes (count : nat) : list Z :=
  map Z.of_nat (firstn count (filter is_prime (seq 2 310))).

(** The integer [k]-th root of [n], below [2^bits], found bit by bit. *)
Fixpoint iroot_from (k n : Z) (bits : nat) (x : Z) : Z :=
  match bits with
  | O => x
  | S b =>
      let y := x + 2 ^ Z.of_nat b in
      iroot_from k n b (if y ^ k <=? n then y else x)
  end.

(** The first 32 bits of the fractional part of the [k]-th root of [p]. *)
Definition frac32 (k p : Z) : Z :=
  iroot_from k (p * 2 ^ (32 * k)) 40 0 mod 2 ^ 32.

(** Cube roots of the first 64 primes. *)
Definition K : list Z := Eval vm_compute in map (frac32 3) (primes 64).

(** Square roots of the first 8 primes. *)
Definition H0 : list Z := Eval vm_compute in map (frac32 2) (primes 8).

(** [n] bytes of [v], most significant first. *)
Definition big_endian (n : nat) (v : Z) : list Z :=
  map (fun k => (v / 256 ^ Z.of_nat k) mod 256) (rev (seq 0 n)).

Definition of_big_endian (bs : list Z) : Z :=
  fold_left (fun acc b => acc * 256 + b) bs 0.

(** Padding: the bit 1, zeros up to 56 modulo 64 bytes, the bit length on
    8 bytes. *)
Definition pad (msg : list Z) : list Z :=
  let l := Z.of_nat (length msg) in
  msg ++ [0x80] ++ repeat 0 (Z.to_nat ((55 - l) mod 64))
      ++ big_endian 8 (8 * l).

Fixpoint chunks (fuel size : nat) (l : list Z) : list (list Z) :=
  match fuel, l with
  | _, [] => []
  | O, _ => []
  | S fuel', _ => firstn size l :: chunks fuel' size (skipn size l)
  end.

Definition words (block : list Z) : list Z :=
  map of_big_endian (chunks 16 4 block).

(** The message schedule: [w] holds [W_0 .. W_(t-1)]; [n] more words are
    appended. *)
Fixpoint schedule (n : nat) (w : list Z) : list Z :=
  match n with
  | O => w
  | S n' =>
      let t := length w in
      let at_ i := nth (t - i) w 0 in
      schedule n'
        (w ++ [add32 (add32 (sigma1 (at_ 2%nat)) (at_ 7%nat))
                     (add32 (sigma0 (at_ 15%nat)) (at_ 16%nat))])
  end.

Definition round (st : list Z) (kw : Z * Z) : list Z :=
  match st with
  | [a; b; c; d; e; f; g; h] =>
      let t1 := add32 (add32 (add32 h (Sigma1 e)) (add32 (Ch e f g) (fst kw)))
                      (snd kw) in
      let t2 := add32 (Sigma0 a) (Maj a b c) in
      [add32 t1 t2; a; b; c; add32 d t1; e; f; g]
  | _ => st
  end.

Definition compress (h : list Z) (block : list Z) : list Z :=
  let w := schedule 48 (words block) in
  let st := fold_left round (combine K w) h in
  map (fun xy => add32 (fst xy) (snd xy)) (combine h st).

Definition digest_Z (msg : list Z) : list Z :=
  let padded := pad msg in
  let blocks := chunks (length padded) 64 padded in
  flat_map (big_endian 4) (fold_left compress blocks H0).

Definition digest (msg : list byte) : list byte :=
  map byte_of_Z (digest_Z (map (fun b => Z.of_N (Byte.to_N b)) msg)).

End SHA256.

(** ** hash_utils.py *)

Definition FIELD_MODULUS : Z :=
  21888242871839275222246405745257275088548364400416034343698204186575808495617.

(** ** merkle_tree.py: [field] *)

Definition field (val : Z) : Z := val mod FIELD_MODULUS.

Record MerkleTree : Type := mkMerkleTree {
  leaves : list Z;
  levels : list (list Z)
}.

Section OffCircuit.

(** [hashlib.sha256]: the digest of a message. *)
Variable sha256 : list byte -> list byte.

(** The [hashlib] object accumulates the message; [digest()] hashes it. *)
Definition sha256_to_field (values : list Z) : result Z :=
  h <- for_each values (fun h v => bs <- to_bytes 32 v ;; Ok (h ++ bs)) [] ;;
  let digest := sha256 h in
  let as_int := from_bytes digest in
  Ok (as_int mod FIELD_MODULUS).

Definition merkle_hash2 (left right : Z) : result Z :=
  sha256_to_field [left; right].

(** ** merkle_tree.py: [MerkleTree] *)

(** The body of the [while] loop of [_build_tree]: the [for] loop that
    computes [next_level] from [level]. *)
Definition pair_up (level : list Z) (next_level : list Z) (i : Z)
  : result (list Z) :=
  left <- getitem level i ;;
  right <- (if i + 1 <? len level then getitem level (i + 1) else Ok left) ;;
  parent <- merkle_hash2 left right ;;
  Ok (next_level ++ [parent]).

Definition build_next_level (level : list Z) : result (list Z) :=
  for_each (range_step2 (len level)) (pair_up level) [].

(** Each round of the [for] loop appends one parent, so the loop yields one
    node per index of [range(0, len(level), 2)]: this is what makes the
    [while] loop of [_build_tree] terminate. *)
Lemma for_each_pair_up_length level xs acc next_level :
  for_each xs (pair_up level) acc = Ok next_level ->
  length next_level = (length acc + length xs)%nat.
Proof.
  revert acc; induction xs as [|i xs IH]; intros acc; simpl.
  - intros [= <-]. lia.
  - unfold pair_up at 1.
    destruct (getitem level i) as [l|]; simpl; [|discriminate].
    destruct (if i + 1 <? len level then getitem level (i + 1) else Ok l)
      as [r|]; simpl; [|discriminate].
    destruct (merkle_hash2 l r) as [p|]; simpl; [|discriminate].
    intros E. apply IH in E. rewrite E, length_app. simpl. lia.
Qed.

Lemma build_next_level_length level next_level :
  build_next_level level = Ok next_level ->
  length next_level = Z.to_nat ((len level + 1) / 2).
Proof.
  unfold build_next_level, range_step2. intros E.
  apply for_each_pair_up_length in E.
  rewrite E, length_map, length_seq. reflexivity.
Qed.

Lemma build_next_level_shrinks level next_level :
  (1 <? len level) = true ->
  build_next_level level = Ok next_level ->
  (length next_level < length level)%nat.
Proof.
  intros Hgt E. apply build_next_level_length in E.
  apply Z.ltb_lt in Hgt. unfold len in *.
  assert ((Z.of_nat (length level) + 1) / 2 < Z.of_nat (length level))
    by (apply Z.div_lt_upper_bound; lia).
  lia.
Qed.

(** The [while len(level) > 1] loop of [_build_tree]; [levels] is
    [self.levels], to which every new level is appended. *)
Equations? build_loop (level : list Z) (levels : list (list Z))
  : result (list (list Z)) by wf (length level) lt :=
  build_loop level levels with inspect (1 <? len level) := {
    | exist _ false _ => Ok levels
    | exist _ true Hgt with inspect (build_next_level level) := {
      | exist _ (Raise e) _ => Raise e
      | exist _ (Ok next_level) Hnext =>
          build_loop next_level (levels ++ [next_level]) } }.
Proof. eapply build_next_level_shrinks; eauto. Qed.

Definition _build_tree (self : MerkleTree) : result MerkleTree :=
  let level := leaves self in
  let levels0 := levels self ++ [level] in
  levels' <- build_loop level levels0 ;;
  Ok (mkMerkleTree (leaves self) levels').

Definition __init__ (leaves : list Z) : result MerkleTree :=
  if len leaves =? 0 then Raise ValueError
  else _build_tree (mkMerkleTree (map field leaves) []).

End OffCircuit.

Definition root (self : MerkleTree) : result Z :=
  top <- getitem (levels self) (-1) ;;
  getitem top 0.

(** One round of the [for level in range(len(self.levels) - 1)] loop of
    [opening]; the loop state is [(siblings, positions, idx)]. *)
Definition opening_step (self : MerkleTree)
    (st : list Z * list Z * Z) (level : Z) : result (list Z * list Z * Z) :=
  let '(siblings, positions, idx) := st in
  layer <- getitem (levels self) level ;;
  let sib_idx := Z.lxor idx 1 in
  sib <- (if sib_idx >=? len layer then getitem layer idx
          else getitem layer sib_idx) ;;
  Ok (siblings ++ [sib], positions ++ [idx mod 2], idx / 2).

Definition opening (self : MerkleTree) (index : Z)
  : result (list Z * list Z) :=
  if (index <? 0) || (index >=? len (leaves self)) then Raise IndexError
  else
    '(siblings, positions, _) <-
      for_each (range (len (levels self) - 1)) (opening_step self)
               ([], [], index) ;;
    Ok (siblings, positions).

(** [height() = number of levels - 1] (the spec's name; the source spells it
    [len(self.levels) - 1] in [opening]). *)
Definition height (self : MerkleTree) : Z := len (levels self) - 1.

(** The opening algorithm of the specification, in its own words: a cursor
    [idx]; for each level from the leaves up to, but excluding, the root
    level, [siblingIdx = idx XOR 1]; the sibling is [level[siblingIdx]] when
    [siblingIdx] is within the level's bounds and [level[idx]] itself
    otherwise; the position is [idx mod 2]; then [idx = idx div 2]. *)
Fixpoint opening_spec (lvls : list (list Z)) (idx : Z)
  : result (list Z * list Z) :=
  match lvls with
  | layer :: ((_ :: _) as upper) =>
      let siblingIdx := Z.lxor idx 1 in
      sibling <- (if (0 <=? siblingIdx) && (siblingIdx <? len layer)
                  then getitem layer siblingIdx
                  else getitem layer idx) ;;
      ' (siblings, positions) <- opening_spec upper (idx / 2) ;;
      Ok (sibling :: siblings, idx mod 2 :: positions)
  | _ => Ok ([], [])
  end.

(** ** zk_merkle.py *)

(** [assert cond, msg] *)
Definition py_assert (cond : bool) (msg : assert_msg) : result unit :=
  if cond then Ok tt else Raise (AssertionError msg).

(** [enumerate(xs)] *)
Definition enumerate {A} (xs : list A) : list (Z * A) :=
  combine (range (len xs)) xs.

Section Circuit.

(** The value type of the proving backend ([LinComb]) and the operations the
    circuit calls on it. *)
Variable LinComb : Type.
Variable poseidon_circuit_hash : list LinComb -> result (list LinComb).
Variable sub : LinComb -> LinComb -> LinComb.
Variable assert_zero : LinComb -> result unit.

(** What the backend has been asked to record: one event per call into it. *)
Inductive event : Type :=
| Hashed (inputs : list LinComb)
| AssertedZero (v : LinComb).

(** A circuit computation threads the backend's record and may raise; the
    record made before an exception stays. *)
Definition circuit (A : Type) : Type := list event -> result A * list event.

Definition cbind {A B} (m : circuit A) (k : A -> circuit B) : circuit B :=
  fun rec =>
    match m rec with
    | (Ok a, rec') => k a rec'
    | (Raise e, rec') => (Raise e, rec')
    end.

Definition lift {A} (r : result A) : circuit A := fun rec => (r, rec).

Definition call_poseidon (inputs : list LinComb) : circuit (list LinComb) :=
  fun rec => (poseidon_circuit_hash inputs, rec ++ [Hashed inputs]).

Definition call_assert_zero (v : LinComb) : circuit unit :=
  fun rec => (assert_zero v, rec ++ [AssertedZero v]).

Fixpoint cfor_each {A S} (xs : list A) (body : S -> A -> circuit S) (s : S)
  : circuit S :=
  match xs with
  | [] => lift (Ok s)
  | x :: xs' => cbind (body s x) (cfor_each xs' body)
  end.

(** The [for h, pos in enumerate(positions)] validation loop. *)
Definition check_positions (positions : list Z) : result unit :=
  for_each (enumerate positions)
    (fun _ '(h, pos) =>
       py_assert ((pos =? 0) || (pos =? 1)) (InvalidPosition h pos))
    tt.

(** One round of the [for h in range(len(positions))] loop; the loop state is
    [needle]. *)
Definition walk_step (siblings : list LinComb) (positions : list Z)
    (needle : LinComb) (h : Z) : circuit LinComb :=
  cbind (lift (getitem positions h)) (fun position_bit =>
  cbind (lift (getitem siblings h)) (fun sibling =>
  let '(left_, right_) :=
    if position_bit =? 0 then (needle, sibling) else (sibling, needle) in
  cbind (call_poseidon [left_; right_]) (fun parent_hash_list =>
  lift (getitem parent_hash_list 0)))).

(** Lines 117-146: [needle = leaf], then the walk up the tree. *)
Definition recompute_walk (leaf : LinComb) (siblings : list LinComb)
    (positions : list Z) : circuit LinComb :=
  cfor_each (range (len positions)) (walk_step siblings positions) leaf.

Definition merkle_opening_circuit (leaf : LinComb) (siblings : list LinComb)
    (positions : list Z) (public_root : LinComb) : circuit unit :=
  cbind (lift (py_assert (len siblings =? len positions)
                 (LengthMismatch (len siblings) (len positions)))) (fun _ =>
  cbind (lift (check_positions positions)) (fun _ =>
  cbind (recompute_walk leaf siblings positions) (fun needle =>
  call_assert_zero (sub needle public_root)))).

(** The [recompute] of the specification, in its own words: [needle := leaf];
    for each [h] in order, route by [positions[h]], then
    [needle := hash(left, right)].  [hash] is the pair hash the walk uses. *)
Fixpoint recompute_spec (hash : LinComb -> LinComb -> result LinComb)
    (needle : LinComb) (siblings : list LinComb) (positions : list Z)
    {struct positions} : result LinComb :=
  match positions, siblings with
  | pos :: positions', sib :: siblings' =>
      let '(left_, right_) :=
        if pos =? 0 then (needle, sib) else (sib, needle) in
      needle' <- hash left_ right_ ;;
      recompute_spec hash needle' siblings' positions'
  | _, _ => Ok needle
  end.

(** The pair hash of the circuit: the first output of the Poseidon sponge on
    [[left, right]]. *)
Definition poseidon_pair (left right : LinComb) : result LinComb :=
  parent_hash_list <- poseidon_circuit_hash [left; right] ;;
  getitem parent_hash_list 0.

End Circuit.

Arguments Hashed {LinComb} inputs.
Arguments AssertedZero {LinComb} v.

(** The concrete (integer) value capability: the tree's own pair hash used as
    the circuit's hash gadget. *)
Definition gadget_of (hash : Z -> Z -> result Z) (inputs : list Z)
  : result (list Z) :=
  left <- getitem inputs 0 ;;
  right <- getitem inputs 1 ;;
  parent <- hash left right ;;
  Ok [parent].

(** ** main_prove_verify.py *)

Section Driver.

Variable sha256 : list byte -> list byte.

Variable LinComb : Type.
Variable poseidon_circuit_hash : list LinComb -> result (list LinComb).
Variable sub : LinComb -> LinComb -> LinComb.
Variable assert_zero : LinComb -> result unit.

(** [PrivVal(v)] and [PubVal(v)]: the backend's value for an integer.  (The
    record of events keeps the hash and assertion requests only.) *)
Variable PrivVal PubVal : Z -> LinComb.

(** The [random] module: what the [k]-th call of [random.getrandbits(128)]
    returns, and what [random.randrange(n)] returns. *)
Variable getrandbits128 : nat -> Z.
Variable randrange : Z -> Z.

Definition generate_random_leaves (num_leaves : Z) : list Z :=
  map (fun k => field (getrandbits128 (Z.to_nat k))) (range num_leaves).

Definition NUM_LEAVES : Z := 16.

(** The body of [merkle_membership_example] (the [@snark] decorator, which
    hands the recorded circuit to the backend, is outside the model). *)
Definition merkle_membership_example : circuit LinComb unit :=
  let leaves := generate_random_leaves NUM_LEAVES in
  cbind (lift (__init__ sha256 leaves)) (fun tree =>
  cbind (lift (root tree)) (fun root_int =>
  let index := randrange NUM_LEAVES in
  cbind (lift (getitem leaves index)) (fun leaf_int =>
  cbind (lift (opening tree index)) (fun '(siblings_int, positions) =>
  let leaf_priv := PrivVal leaf_int in
  let siblings_priv := map PrivVal siblings_int in
  let root_pub := PubVal root_int in
  merkle_opening_circuit poseidon_circuit_hash sub assert_zero
    leaf_priv siblings_priv positions root_pub)))).

End Driver.

(** ** Notions used in the statements *)

(** A field element: an integer in [0, FIELD_MODULUS). *)
Definition in_field (x : Z) : Prop := 0 <= x < FIELD_MODULUS.

(** A position bit. *)
Definition valid_position (pos : Z) : Prop := pos = 0 \/ pos = 1.

(** The first position that is neither 0 nor 1, with its level, counting
    levels from [k]. *)
Fixpoint first_invalid (k : nat) (positions : list Z) : option (Z * Z) :=
  match positions with
  | [] => None
  | pos :: positions' =>
      if (pos =? 0) || (pos =? 1) then first_invalid (S k) positions'
      else Some (Z.of_nat k, pos)
  end.

(** Ceiling of [n / 2]. *)
Definition ceil_half (n : Z) : Z := - ((- n) / 2).

(** The message [sha256_to_field] feeds to the digest: the 32-byte
    encodings of the values, one after the other. *)
Definition hashed_message (values : list Z) : result (list byte) :=
  for_each values (fun h v => bs <- to_bytes 32 v ;; Ok (h ++ bs)) [].

(** The integer whose binary digits, least significant first, are
    [positions]. *)
Definition bits_value (positions : list Z) : Z :=
  fold_right (fun pos acc => pos + 2 * acc) 0 positions.

Section Levels.

Variable sha256 : list byte -> list byte.

(** The parent the loop body computes at index [i]. *)
Definition parent_at (level : list Z) (i : Z) : result Z :=
  left <- getitem level i ;;
  right <- (if i + 1 <? len level then getitem level (i + 1) else Ok left) ;;
  merkle_hash2 sha256 left right.

(** What [_build_tree] leaves in [self.levels]: each level is made of field
    elements and is followed by the level the [for] loop computes from it;
    the last level is a single node. *)
Inductive tower : list (list Z) -> Prop :=
| tower_top r :
    in_field r -> tower [[r]]
| tower_step level next_level upper :
    1 < len level ->
    Forall in_field level ->
    build_next_level sha256 level = Ok next_level ->
    tower (next_level :: upper) ->
    tower (level :: next_level :: upper).

End Levels.

(** * Properties *)

(** ** Lists and indices *)

Lemma len_nonneg {A} (l : list A) : 0 <= len l.
Proof. unfold len. lia. Qed.

Lemma len_nil {A} : len (@nil A) = 0.
Proof. reflexivity. Qed.

Lemma len_cons {A} (x : A) l : len (x :: l) = len l + 1.
Proof. unfold len. simpl length. lia. Qed.

Lemma len_app {A} (l1 l2 : list A) : len (l1 ++ l2) = len l1 + len l2.
Proof. unfold len. rewrite length_app. lia. Qed.

Lemma len_zero_nil {A} (l : list A) : len l = 0 -> l = [].
Proof. destruct l; [reflexivity|]. rewrite len_cons. pose proof (len_nonneg l). lia. Qed.

Lemma getitem_nonneg {A} (l : list A) i :
  0 <= i ->
  getitem l i = match nth_error l (Z.to_nat i) with
                | Some a => Ok a
                | None => Raise IndexError
                end.
Proof.
  intros Hi. unfold getitem.
  destruct (Z.ltb_spec i 0); [lia|].
  rewrite Z.geb_leb. destruct (Z.ltb_spec i 0); [lia|]. simpl.
  destruct (Z.leb_spec (len l) i) as [Hge|]; [|reflexivity].
  assert (nth_error l (Z.to_nat i) = None) as ->; [|reflexivity].
  apply nth_error_None. unfold len in Hge. lia.
Qed.

Lemma getitem_cons_0 {A} (x : A) l : getitem (x :: l) 0 = Ok x.
Proof. rewrite getitem_nonneg by lia. reflexivity. Qed.

Lemma getitem_cons_succ {A} (x : A) l i :
  0 <= i -> getitem (x :: l) (i + 1) = getitem l i.
Proof.
  intros Hi. rewrite !getitem_nonneg by lia.
  replace (Z.to_nat (i + 1)) with (S (Z.to_nat i)) by lia. reflexivity.
Qed.

Lemma getitem_in_range {A} (l : list A) i :
  0 <= i < len l -> exists a, getitem l i = Ok a.
Proof.
  intros Hi. rewrite getitem_nonneg by lia.
  destruct (nth_error l (Z.to_nat i)) as [a|] eqn:E; [eauto|].
  apply nth_error_None in E. unfold len in Hi. lia.
Qed.

Lemma getitem_Ok_range {A} (l : list A) i a :
  0 <= i -> getitem l i = Ok a -> i < len l.
Proof.
  intros Hi. rewrite getitem_nonneg by lia.
  destruct (nth_error l (Z.to_nat i)) eqn:E; [|discriminate].
  intros _. assert (nth_error l (Z.to_nat i) <> None) as Hn by congruence.
  apply nth_error_Some in Hn. unfold len. lia.
Qed.

Lemma getitem_In {A} (l : list A) i a : getitem l i = Ok a -> In a l.
Proof.
  unfold getitem.
  destruct (_ || _); [discriminate|].
  destruct (nth_error l _) eqn:E; [|discriminate].
  intros [= <-]. eapply nth_error_In; eauto.
Qed.

Lemma getitem_app_len {A} (pre : list A) x rest :
  getitem (pre ++ x :: rest) (len pre) = Ok x.
Proof.
  rewrite getitem_nonneg by apply len_nonneg.
  unfold len. rewrite Nat2Z.id, nth_error_app2, Nat.sub_diag by lia.
  reflexivity.
Qed.

Lemma getitem_last {A} (l : list A) x : getitem (l ++ [x]) (-1) = Ok x.
Proof.
  pose proof (len_nonneg l) as Hl.
  assert (E : -1 + len (l ++ [x]) = len l)
    by (rewrite len_app, len_cons, len_nil; lia).
  unfold getitem. change (-1 <? 0) with true. cbv iota. rewrite E.
  rewrite Z.geb_leb.
  destruct (Z.ltb_spec (len l) 0); [lia|].
  destruct (Z.leb_spec (len (l ++ [x])) (len l)); [lia|]. simpl.
  unfold len. rewrite Nat2Z.id, nth_error_app2, Nat.sub_diag by lia.
  reflexivity.
Qed.

Lemma bind_Ok {A B} (m : result A) (k : A -> result B) b :
  bind m k = Ok b -> exists a, m = Ok a /\ k a = Ok b.
Proof. destruct m; simpl; [eauto|discriminate]. Qed.

(** Induction on a list two elements at a time. *)
Lemma pair_induction {A} (P : list A -> Prop) :
  P [] -> (forall x, P [x]) -> (forall x y l, P l -> P (x :: y :: l)) ->
  forall l, P l.
Proof.
  intros H0 H1 H2.
  assert (forall l, P l /\ forall x, P (x :: l)) as H.
  { induction l as [|y l [IH1 IH2]]; split; auto. }
  intros l. apply H.
Qed.

(** ** Field elements and the pair hash *)

Lemma FIELD_MODULUS_pos : 0 < FIELD_MODULUS.
Proof. reflexivity. Qed.

Lemma FIELD_MODULUS_fits : FIELD_MODULUS < 256 ^ Z.of_nat 32.
Proof. reflexivity. Qed.

Lemma field_in_field x : in_field (field x).
Proof. apply Z.mod_pos_bound, FIELD_MODULUS_pos. Qed.

Lemma field_id x : in_field x -> field x = x.
Proof. intros H. apply Z.mod_small, H. Qed.

Lemma Forall_in_field_map_field l : Forall in_field (map field l).
Proof. apply Forall_map, Forall_forall. intros; apply field_in_field. Qed.

Lemma to_bytes_in_range n v :
  0 <= v < 256 ^ Z.of_nat n -> exists bs, to_bytes n v = Ok bs.
Proof.
  intros Hv. unfold to_bytes.
  destruct (Z.ltb_spec v 0); [lia|].
  rewrite Z.geb_leb.
  destruct (Z.leb_spec (256 ^ Z.of_nat n) v); [lia|]. eauto.
Qed.

Lemma to_bytes_Ok_range n v bs :
  to_bytes n v = Ok bs -> 0 <= v < 256 ^ Z.of_nat n.
Proof.
  unfold to_bytes.
  destruct (Z.ltb_spec v 0); [discriminate|].
  rewrite Z.geb_leb.
  destruct (Z.leb_spec (256 ^ Z.of_nat n) v); [discriminate|]. lia.
Qed.

Section PairHash.

Variable sha256 : list byte -> list byte.

Lemma sha256_to_field_in_field values p :
  sha256_to_field sha256 values = Ok p -> in_field p.
Proof.
  unfold sha256_to_field. intros E.
  apply bind_Ok in E as (h & _ & [= <-]).
  apply Z.mod_pos_bound, FIELD_MODULUS_pos.
Qed.

Lemma merkle_hash2_in_field l r p :
  merkle_hash2 sha256 l r = Ok p -> in_field p.
Proof. apply sha256_to_field_in_field. Qed.

(** On field elements the 32-byte encoding never overflows, so the pair hash
    is defined. *)
Lemma merkle_hash2_total l r :
  in_field l -> in_field r ->
  exists p, merkle_hash2 sha256 l r = Ok p /\ in_field p.
Proof.
  intros Hl Hr. pose proof FIELD_MODULUS_fits as Hfit.
  destruct (@to_bytes_in_range 32 l) as [bl El]; [unfold in_field in *; lia|].
  destruct (@to_bytes_in_range 32 r) as [br Er]; [unfold in_field in *; lia|].
  unfold merkle_hash2, sha256_to_field.
  cbn [for_each]. rewrite El. cbn [bind]. rewrite Er. cbn [bind].
  eexists. split; [reflexivity|].
  apply Z.mod_pos_bound, FIELD_MODULUS_pos.
Qed.

(** An operand outside [0, 2^256) makes the pair hash raise. *)
Lemma merkle_hash2_Ok_operands l r p :
  merkle_hash2 sha256 l r = Ok p ->
  0 <= l < 256 ^ Z.of_nat 32 /\ 0 <= r < 256 ^ Z.of_nat 32.
Proof.
  unfold merkle_hash2, sha256_to_field. cbn [for_each].
  destruct (to_bytes 32 l) as [bl|] eqn:El; cbn [bind]; [|discriminate].
  destruct (to_bytes 32 r) as [br|] eqn:Er; cbn [bind]; [|discriminate].
  intros _. split; eapply to_bytes_Ok_range; eauto.
Qed.

(** ** One level of the build: the [for] loop, two nodes at a time *)

Lemma pair_up_parent_at level acc i :
  pair_up sha256 level acc i = (p <- parent_at sha256 level i ;; Ok (acc ++ [p])).
Proof.
  unfold pair_up, parent_at.
  destruct (getitem level i) as [l|]; cbn [bind]; [|reflexivity].
  destruct (if i + 1 <? len level then getitem level (i + 1) else Ok l)
    as [r|]; cbn [bind]; reflexivity.
Qed.

Lemma for_each_pair_up_acc level xs acc :
  for_each xs (pair_up sha256 level) acc =
  (r <- for_each xs (pair_up sha256 level) [] ;; Ok (acc ++ r)).
Proof.
  revert acc. induction xs as [|i xs IH]; intros acc; cbn [for_each].
  - cbn [bind]. rewrite app_nil_r. reflexivity.
  - rewrite !pair_up_parent_at.
    destruct (parent_at sha256 level i) as [p|]; cbn [bind]; [|reflexivity].
    rewrite (IH (acc ++ [p])), (IH ([] ++ [p])).
    destruct (for_each xs (pair_up sha256 level) []); cbn [bind];
      [|reflexivity].
    rewrite <- app_assoc. reflexivity.
Qed.

Lemma parent_at_shift x y rest i :
  0 <= i -> parent_at sha256 (x :: y :: rest) (i + 2) = parent_at sha256 rest i.
Proof.
  intros Hi. unfold parent_at.
  replace (i + 2) with (i + 1 + 1) by lia.
  rewrite !getitem_cons_succ by lia.
  rewrite !len_cons.
  replace (i + 1 + 1 + 1 <? len rest + 1 + 1) with (i + 1 <? len rest)
    by (destruct (Z.ltb_spec (i + 1) (len rest));
        destruct (Z.ltb_spec (i + 1 + 1 + 1) (len rest + 1 + 1)); lia).
  reflexivity.
Qed.

Lemma for_each_pair_up_shift x y rest xs acc :
  Forall (fun i => 0 <= i) xs ->
  for_each (map (fun i => i + 2) xs) (pair_up sha256 (x :: y :: rest)) acc =
  for_each xs (pair_up sha256 rest) acc.
Proof.
  intros Hxs. revert acc.
  induction Hxs as [|i xs Hi _ IH]; intros acc; cbn [map for_each];
    [reflexivity|].
  rewrite !pair_up_parent_at, parent_at_shift by assumption.
  destruct (parent_at sha256 rest i); cbn [bind]; [apply IH|reflexivity].
Qed.

Lemma range_step2_nonneg n : Forall (fun i => 0 <= i) (range_step2 n).
Proof.
  unfold range_step2. apply Forall_map, Forall_forall. intros; lia.
Qed.

Lemma range_step2_plus2 n :
  0 <= n ->
  range_step2 (n + 2) = 0 :: map (fun i => i + 2) (range_step2 n).
Proof.
  intros Hn. unfold range_step2.
  replace ((n + 2 + 1) / 2) with ((n + 1) / 2 + 1)
    by (rewrite <- Z.div_add by lia; f_equal; lia).
  assert (0 <= (n + 1) / 2) by (apply Z.div_pos; lia).
  replace (Z.to_nat ((n + 1) / 2 + 1)) with (S (Z.to_nat ((n + 1) / 2)))
    by lia.
  cbn [seq map]. f_equal.
  rewrite <- seq_shift, !map_map. apply map_ext. intros k. lia.
Qed.

Lemma build_next_level_nil : build_next_level sha256 [] = Ok [].
Proof. reflexivity. Qed.

Lemma build_next_level_one x :
  build_next_level sha256 [x] = (p <- merkle_hash2 sha256 x x ;; Ok [p]).
Proof.
  unfold build_next_level.
  change (range_step2 (len [x])) with [0]. cbn [for_each].
  rewrite pair_up_parent_at. unfold parent_at.
  rewrite getitem_cons_0. cbn [bind].
  change (0 + 1 <? len [x]) with false. cbv iota. cbn [bind].
  destruct (merkle_hash2 sha256 x x); reflexivity.
Qed.

Lemma build_next_level_two x y rest :
  build_next_level sha256 (x :: y :: rest) =
  (p <- merkle_hash2 sha256 x y ;;
   ps <- build_next_level sha256 rest ;;
   Ok (p :: ps)).
Proof.
  unfold build_next_level.
  rewrite !len_cons.
  replace (len rest + 1 + 1) with (len rest + 2) by lia.
  rewrite range_step2_plus2 by apply len_nonneg. cbn [for_each].
  rewrite pair_up_parent_at. unfold parent_at at 1.
  rewrite getitem_cons_0. cbn [bind].
  assert ((0 + 1 <? len (x :: y :: rest)) = true) as ->.
  { rewrite !len_cons. pose proof (len_nonneg rest). apply Z.ltb_lt. lia. }
  rewrite (@getitem_cons_succ _ x (y :: rest) 0), getitem_cons_0 by lia.
  cbn [bind].
  destruct (merkle_hash2 sha256 x y) as [p|]; cbn [bind]; [|reflexivity].
  rewrite for_each_pair_up_acc.
  rewrite for_each_pair_up_shift by apply range_step2_nonneg.
  reflexivity.
Qed.

End PairHash.

(** ** The whole build: a tower of levels *)

Section Build.

Variable sha256 : list byte -> list byte.

Lemma parent_at_one x :
  parent_at sha256 [x] 0 = merkle_hash2 sha256 x x.
Proof.
  unfold parent_at. rewrite getitem_cons_0. cbn [bind].
  change (0 + 1 <? len [x]) with false. reflexivity.
Qed.

Lemma parent_at_two x y rest :
  parent_at sha256 (x :: y :: rest) 0 = merkle_hash2 sha256 x y.
Proof.
  unfold parent_at. rewrite getitem_cons_0. cbn [bind].
  assert ((0 + 1 <? len (x :: y :: rest)) = true) as ->.
  { rewrite !len_cons. pose proof (len_nonneg rest). apply Z.ltb_lt. lia. }
  rewrite (@getitem_cons_succ _ x (y :: rest) 0), getitem_cons_0 by lia.
  reflexivity.
Qed.

(** Node [j] of the next level is the parent computed at index [2j]. *)
Lemma build_next_level_index level :
  forall next_level,
    build_next_level sha256 level = Ok next_level ->
    forall j, 0 <= j < len next_level ->
      parent_at sha256 level (2 * j) = getitem next_level j.
Proof.
  induction level as [| x | x y rest IH] using pair_induction;
    intros next_level E j Hj.
  - rewrite build_next_level_nil in E. injection E as <-.
    change (len (@nil Z)) with 0 in Hj. lia.
  - rewrite build_next_level_one in E.
    apply bind_Ok in E as (p & Ep & [= <-]).
    change (len [p]) with 1 in Hj.
    assert (j = 0) as -> by lia.
    change (2 * 0) with 0. rewrite parent_at_one, getitem_cons_0. exact Ep.
  - rewrite build_next_level_two in E.
    apply bind_Ok in E as (p & Ep & E).
    apply bind_Ok in E as (ps & Eps & [= <-]).
    rewrite len_cons in Hj.
    destruct (Z.eq_dec j 0) as [-> | Hnz].
    + change (2 * 0) with 0. rewrite parent_at_two, getitem_cons_0. exact Ep.
    + replace (2 * j) with (2 * (j - 1) + 2) by lia.
      replace j with (j - 1 + 1) at 2 by lia.
      rewrite parent_at_shift, getitem_cons_succ by lia.
      apply IH; [assumption | lia].
Qed.

Lemma build_next_level_total level :
  Forall in_field level ->
  exists next_level,
    build_next_level sha256 level = Ok next_level /\
    Forall in_field next_level.
Proof.
  induction level as [| x | x y rest IH] using pair_induction; intros Hf.
  - exists []. split; [reflexivity | constructor].
  - inversion_clear Hf as [| ? ? Hx _].
    destruct (merkle_hash2_total sha256 Hx Hx) as (p & Ep & Hp).
    exists [p]. rewrite build_next_level_one, Ep. split; [reflexivity|].
    constructor; [assumption | constructor].
  - inversion_clear Hf as [| ? ? Hx Hf']. inversion_clear Hf' as [| ? ? Hy Hr].
    destruct (merkle_hash2_total sha256 Hx Hy) as (p & Ep & Hp).
    destruct (IH Hr) as (ps & Eps & Hps).
    exists (p :: ps). rewrite build_next_level_two, Ep, Eps.
    split; [reflexivity | constructor; assumption].
Qed.

Lemma build_next_level_len level next_level :
  build_next_level sha256 level = Ok next_level ->
  len next_level = (len level + 1) / 2.
Proof.
  intros E. apply build_next_level_length in E. unfold len at 1.
  rewrite E, Z2Nat.id; [reflexivity|].
  apply Z.div_pos; [pose proof (len_nonneg level)|]; lia.
Qed.

(** The loop equation of [while len(level) > 1]. *)
Lemma build_loop_eq level levels :
  build_loop sha256 level levels =
  if 1 <? len level
  then (next_level <- build_next_level sha256 level ;;
        build_loop sha256 next_level (levels ++ [next_level]))
  else Ok levels.
Proof.
  funelim (build_loop sha256 level levels);
    match goal with E : (1 <? len _) = _ |- _ => rewrite E end;
    try match goal with E : build_next_level _ _ = _ |- _ => rewrite E end;
    reflexivity.
Qed.

Lemma build_loop_tower n :
  forall level, (length level <= n)%nat -> level <> [] ->
    Forall in_field level ->
    forall acc, exists upper,
      build_loop sha256 level (acc ++ [level]) = Ok (acc ++ level :: upper) /\
      tower sha256 (level :: upper).
Proof.
  induction n as [|n IH]; intros level Hn Hne Hf acc.
  - destruct level; [congruence | simpl in Hn; lia].
  - rewrite build_loop_eq.
    destruct (Z.ltb_spec 1 (len level)) as [Hgt | Hle].
    + destruct (build_next_level_total Hf) as (nl & Enl & Hnl).
      pose proof (build_next_level_len _ Enl) as Hlen.
      assert (len nl < len level) as Hlt
        by (rewrite Hlen; apply Z.div_lt_upper_bound; lia).
      assert (0 < len nl) as Hpos
        by (rewrite Hlen; apply Z.div_str_pos; lia).
      rewrite Enl. cbn [bind].
      destruct (IH nl) with (acc := acc ++ [level]) as (upper & E & Ht).
      * unfold len in Hlt. lia.
      * intros ->. change (len (@nil Z)) with 0 in Hpos. lia.
      * assumption.
      * exists (nl :: upper). rewrite E, <- app_assoc.
        split; [reflexivity|]. constructor; assumption.
    + exists []. split; [reflexivity|].
      destruct level as [|r [|? ?]]; [congruence | | ].
      * constructor. inversion Hf; assumption.
      * rewrite !len_cons in Hle. pose proof (len_nonneg l). lia.
Qed.

(** Construction from a non-empty leaf sequence returns a tree whose levels
    form a tower over the reduced leaves. *)
Lemma init_tower leaves0 :
  leaves0 <> [] ->
  exists upper,
    __init__ sha256 leaves0 =
      Ok (mkMerkleTree (map field leaves0) (map field leaves0 :: upper)) /\
    tower sha256 (map field leaves0 :: upper).
Proof.
  intros Hne. unfold __init__, _build_tree.
  destruct (Z.eqb_spec (len leaves0) 0) as [H0|_].
  - apply len_zero_nil in H0. contradiction.
  - cbn [leaves levels].
    destruct (@build_loop_tower (length (map field leaves0))
                (map field leaves0)) with (acc := @nil (list Z))
      as (upper & E & Ht).
    + lia.
    + destruct leaves0; [congruence | discriminate].
    + apply Forall_in_field_map_field.
    + exists upper. rewrite E. split; [reflexivity | assumption].
Qed.

End Build.

(** ** Opening extraction *)

Lemma lxor_1 idx : 0 <= idx -> Z.lxor idx 1 = idx + 1 - 2 * (idx mod 2).
Proof.
  intros Hidx. destruct idx as [|[p|p|]|]; try reflexivity; try lia.
  - change (Z.lxor (Z.pos p~1) 1) with (Z.pos p~0).
    pose proof (Pos2Z.inj_xI p). pose proof (Pos2Z.inj_xO p).
    Z.div_mod_to_equations. lia.
  - change (Z.lxor (Z.pos p~0) 1) with (Z.pos p~1).
    pose proof (Pos2Z.inj_xI p). pose proof (Pos2Z.inj_xO p).
    Z.div_mod_to_equations. lia.
Qed.

Lemma mod2_cases idx : idx mod 2 = 0 \/ idx mod 2 = 1.
Proof. pose proof (Z.mod_pos_bound idx 2). lia. Qed.

Lemma getitem_neg {A} (l : list A) i :
  i < 0 -> 0 <= i + len l -> getitem l i = getitem l (i + len l).
Proof.
  intros Hneg Hnn. unfold getitem.
  assert ((i <? 0) = true) as E1 by (apply Z.ltb_lt; lia).
  assert ((i + len l <? 0) = false) as E2 by (apply Z.ltb_ge; lia).
  cbv zeta. rewrite E1. cbv iota. rewrite E2. cbv iota. rewrite E2.
  reflexivity.
Qed.

Lemma getitem_neg1_cons {A} (x y : A) l :
  getitem (x :: y :: l) (-1) = getitem (y :: l) (-1).
Proof.
  pose proof (len_nonneg l) as Hl.
  assert (len (y :: l) = len l + 1) as E1 by apply len_cons.
  assert (len (x :: y :: l) = len l + 1 + 1) as E2
    by (rewrite len_cons, E1; reflexivity).
  rewrite (@getitem_neg _ (x :: y :: l) (-1)) by lia.
  rewrite (@getitem_neg _ (y :: l) (-1)) by lia.
  rewrite E1, E2.
  replace (-1 + (len l + 1 + 1)) with (len l + 1) by lia.
  rewrite getitem_cons_succ by lia. f_equal. lia.
Qed.

Lemma opening_spec_step layer layer' upper idx :
  opening_spec (layer :: layer' :: upper) idx =
  (sibling <- (if (0 <=? Z.lxor idx 1) && (Z.lxor idx 1 <? len layer)
               then getitem layer (Z.lxor idx 1)
               else getitem layer idx) ;;
   sp <- opening_spec (layer' :: upper) (idx / 2) ;;
   let '(siblings, positions) := sp in
   Ok (sibling :: siblings, idx mod 2 :: positions)).
Proof. reflexivity. Qed.

(** The [for] loop of [opening], started at the level that follows [pre],
    walks the remaining levels the way [opening_spec] does. *)
Lemma opening_loop self rest :
  forall pre siblings positions idx,
    0 <= idx ->
    levels self = pre ++ rest ->
    (st <- for_each (map Z.of_nat (seq (length pre) (length rest - 1)))
                    (opening_step self) (siblings, positions, idx) ;;
     let '(s, p, _) := st in Ok (s, p)) =
    (sp <- opening_spec rest idx ;;
     let '(s', p') := sp in Ok (siblings ++ s', positions ++ p')).
Proof.
  induction rest as [|layer upper IH]; intros pre ss ps idx Hidx Hlv.
  - cbn. rewrite !app_nil_r. reflexivity.
  - destruct upper as [|layer' upper'].
    + cbn. rewrite !app_nil_r. reflexivity.
    + replace (length (layer :: layer' :: upper') - 1)%nat
        with (S (length (layer' :: upper') - 1)) by (cbn [length]; lia).
      cbn [seq map for_each]. unfold opening_step at 1.
      change (Z.of_nat (length pre)) with (len pre).
      rewrite Hlv, getitem_app_len. cbn [bind].
      rewrite opening_spec_step.
      assert (0 <= Z.lxor idx 1) as Hx by (apply Z.lxor_nonneg; lia).
      rewrite Z.geb_leb.
      destruct (Z.leb_spec 0 (Z.lxor idx 1)); [|lia].
      rewrite andb_true_l.
      replace (len layer <=? Z.lxor idx 1)
        with (negb (Z.lxor idx 1 <? len layer))
        by (rewrite Z.ltb_antisym, negb_involutive; reflexivity).
      destruct (Z.lxor idx 1 <? len layer); cbn [negb].
      * destruct (getitem layer (Z.lxor idx 1)) as [sib|]; cbn [bind];
          [|reflexivity].
        specialize (IH (pre ++ [layer]) (ss ++ [sib]) (ps ++ [idx mod 2])
                       (idx / 2)).
        replace (length (pre ++ [layer])) with (S (length pre)) in IH
          by (rewrite length_app; cbn [length]; lia).
        rewrite IH;
          [| apply Z.div_pos; lia | rewrite <- app_assoc; exact Hlv].
        destruct (opening_spec (layer' :: upper') (idx / 2))
          as [[s' p']|]; cbn [bind]; [|reflexivity].
        rewrite <- !app_assoc. reflexivity.
      * destruct (getitem layer idx) as [sib|]; cbn [bind]; [|reflexivity].
        specialize (IH (pre ++ [layer]) (ss ++ [sib]) (ps ++ [idx mod 2])
                       (idx / 2)).
        replace (length (pre ++ [layer])) with (S (length pre)) in IH
          by (rewrite length_app; cbn [length]; lia).
        rewrite IH;
          [| apply Z.div_pos; lia | rewrite <- app_assoc; exact Hlv].
        destruct (opening_spec (layer' :: upper') (idx / 2))
          as [[s' p']|]; cbn [bind]; [|reflexivity].
        rewrite <- !app_assoc. reflexivity.
Qed.

(** For an index within the leaves, [opening] computes what the
    specification's algorithm computes, on any tree. *)
Lemma opening_eq_spec self index :
  0 <= index < len (leaves self) ->
  opening self index = opening_spec (levels self) index.
Proof.
  intros Hi. unfold opening.
  rewrite Z.geb_leb.
  destruct (Z.ltb_spec index 0); [lia|].
  destruct (Z.leb_spec (len (leaves self)) index); [lia|]. cbn [orb].
  pose proof (@opening_loop self (levels self) [] [] [] index) as L.
  cbn [length app] in L.
  unfold range.
  replace (Z.to_nat (len (levels self) - 1))
    with (length (levels self) - 1)%nat by (unfold len; lia).
  etransitivity; [|etransitivity; [apply L; [lia | reflexivity]|]].
  - destruct (for_each _ _ _) as [[[s p] i]|]; reflexivity.
  - destruct (opening_spec _ _) as [[s p]|]; reflexivity.
Qed.

(** ** The membership circuit *)

Lemma first_invalid_None k positions :
  first_invalid k positions = None <-> Forall valid_position positions.
Proof.
  revert k. induction positions as [|pos ps IH]; intros k; cbn.
  - split; [constructor | reflexivity].
  - destruct (Z.eqb_spec pos 0); [|destruct (Z.eqb_spec pos 1)]; cbn.
    + rewrite IH. split; [constructor; [left|]; assumption|].
      inversion 1; assumption.
    + rewrite IH. split; [constructor; [right|]; assumption|].
      inversion 1; assumption.
    + split; [discriminate|]. inversion 1 as [|? ? Hv]. destruct Hv; lia.
Qed.

Lemma first_invalid_Some k positions h pos :
  first_invalid k positions = Some (h, pos) ->
  Z.of_nat k <= h /\
  getitem positions (h - Z.of_nat k) = Ok pos /\
  ~ valid_position pos /\
  forall h' pos', Z.of_nat k <= h' < h ->
    getitem positions (h' - Z.of_nat k) = Ok pos' -> valid_position pos'.
Proof.
  revert k. induction positions as [|p ps IH]; intros k; cbn; [discriminate|].
  destruct ((p =? 0) || (p =? 1)) eqn:Ev.
  - intros E. apply IH in E as (Hle & Hget & Hbad & Hbefore).
    split; [lia|]. split; [|split; [assumption|]].
    + replace (h - Z.of_nat k) with (h - Z.of_nat (S k) + 1) by lia.
      rewrite getitem_cons_succ by lia. assumption.
    + intros h' pos' Hh'. destruct (Z.eq_dec h' (Z.of_nat k)) as [->|Hne].
      * rewrite Z.sub_diag, getitem_cons_0. intros [= <-].
        apply orb_true_iff in Ev as [Ev|Ev]; apply Z.eqb_eq in Ev;
          [left | right]; assumption.
      * replace (h' - Z.of_nat k) with (h' - Z.of_nat (S k) + 1) by lia.
        rewrite getitem_cons_succ by lia. apply Hbefore. lia.
  - intros [= <- <-]. split; [lia|]. rewrite Z.sub_diag, getitem_cons_0.
    split; [reflexivity|]. split; [|intros; lia].
    apply orb_false_iff in Ev as [E0 E1].
    apply Z.eqb_neq in E0, E1. intros [?|?]; contradiction.
Qed.

Lemma check_positions_from k n positions :
  (length positions <= n)%nat ->
  for_each (combine (map Z.of_nat (seq k n)) positions)
    (fun (_ : unit) '(h, pos) =>
       py_assert ((pos =? 0) || (pos =? 1)) (InvalidPosition h pos)) tt =
  match first_invalid k positions with
  | None => Ok tt
  | Some (h, pos) => Raise (AssertionError (InvalidPosition h pos))
  end.
Proof.
  revert k n. induction positions as [|pos ps IH]; intros k n Hn.
  - destruct n; reflexivity.
  - destruct n as [|n]; [simpl in Hn; lia|].
    cbn [seq map combine for_each first_invalid].
    destruct ((pos =? 0) || (pos =? 1)); cbn [py_assert bind].
    + apply IH. simpl in Hn. lia.
    + reflexivity.
Qed.

Lemma check_positions_eq positions :
  check_positions positions =
  match first_invalid 0 positions with
  | None => Ok tt
  | Some (h, pos) => Raise (AssertionError (InvalidPosition h pos))
  end.
Proof.
  unfold check_positions, enumerate, range.
  apply check_positions_from. unfold len. lia.
Qed.

Section CircuitProperties.

Variable LinComb : Type.
Variable poseidon_circuit_hash : list LinComb -> result (list LinComb).
Variable sub : LinComb -> LinComb -> LinComb.
Variable assert_zero : LinComb -> result unit.

(** The walk, started at the level that follows the [pre] prefixes, computes
    what [recompute_spec] computes on the remaining levels; the backend is
    asked for hashes only, one per level when the walk returns. *)
Lemma walk_loop positions :
  forall siblings pre_s pre_p needle rec,
    length pre_s = length pre_p ->
    length siblings = length positions ->
    exists hashed,
      cfor_each (map Z.of_nat (seq (length pre_p) (length positions)))
        (walk_step poseidon_circuit_hash
           (pre_s ++ siblings) (pre_p ++ positions))
        needle rec =
      (recompute_spec (poseidon_pair poseidon_circuit_hash)
         needle siblings positions,
       rec ++ map Hashed hashed) /\
      (forall v,
         recompute_spec (poseidon_pair poseidon_circuit_hash)
           needle siblings positions = Ok v ->
         length hashed = length positions).
Proof.
  induction positions as [|pos ps IH];
    intros siblings pre_s pre_p needle rec Hpre Hlen.
  - exists []. cbn. rewrite app_nil_r. split; reflexivity.
  - destruct siblings as [|sib ss]; [discriminate|].
    cbn [length seq map cfor_each recompute_spec].
    unfold cbind at 1. unfold walk_step at 1.
    change (Z.of_nat (length pre_p)) with (len pre_p).
    unfold cbind at 1, lift at 1. rewrite getitem_app_len.
    unfold cbind at 1, lift at 1.
    replace (len pre_p) with (len pre_s) by (unfold len; lia).
    rewrite getitem_app_len.
    set (lr := if pos =? 0 then (needle, sib) else (sib, needle)).
    destruct lr as [l r].
    unfold cbind at 1, call_poseidon at 1.
    assert (poseidon_pair poseidon_circuit_hash l r =
            (out <- poseidon_circuit_hash [l; r] ;; getitem out 0)) as Hpp
      by reflexivity.
    rewrite !Hpp. clear Hpp.
    destruct (poseidon_circuit_hash [l; r]) as [out|]; cbn [bind];
      [|exists [[l; r]]; split; [reflexivity | intros v Hv; discriminate Hv]].
    unfold lift at 1.
    destruct (getitem out 0) as [needle'|]; cbn [bind];
      [|exists [[l; r]]; split; [reflexivity | intros v Hv; discriminate Hv]].
    specialize (IH ss (pre_s ++ [sib]) (pre_p ++ [pos]) needle'
                   (rec ++ [Hashed [l; r]])).
    rewrite <- !app_assoc in IH. cbn [app] in IH.
    replace (length (pre_p ++ [pos])) with (S (length pre_p)) in IH
      by (rewrite length_app; cbn [length]; lia).
    destruct IH as (hashed & E & Hn).
    + rewrite !length_app. cbn [length]. lia.
    + simpl in Hlen. lia.
    + exists ([l; r] :: hashed). rewrite E, <- app_assoc. cbn [app map length].
      split; [reflexivity|]. intros v Hv. rewrite (Hn v Hv). reflexivity.
Qed.

Lemma recompute_walk_record leaf siblings positions rec :
  len siblings = len positions ->
  exists hashed,
    recompute_walk poseidon_circuit_hash leaf siblings positions rec =
    (recompute_spec (poseidon_pair poseidon_circuit_hash)
       leaf siblings positions,
     rec ++ map Hashed hashed) /\
    (forall v,
       recompute_spec (poseidon_pair poseidon_circuit_hash)
         leaf siblings positions = Ok v ->
       len hashed = len positions).
Proof.
  intros Hlen. unfold recompute_walk, range.
  replace (Z.to_nat (len positions)) with (length positions)
    by (unfold len; lia).
  destruct (@walk_loop positions siblings [] [] leaf rec)
    as (hashed & E & Hn); [reflexivity | unfold len in Hlen; lia |].
  exists hashed. split; [exact E|].
  intros v Hv. unfold len. rewrite (Hn v Hv). reflexivity.
Qed.

Lemma recompute_walk_eq leaf siblings positions rec :
  len siblings = len positions ->
  fst (recompute_walk poseidon_circuit_hash leaf siblings positions rec) =
  recompute_spec (poseidon_pair poseidon_circuit_hash)
    leaf siblings positions.
Proof.
  intros Hlen.
  destruct (@recompute_walk_record leaf siblings positions rec Hlen)
    as (hashed & -> & _).
  reflexivity.
Qed.

End CircuitProperties.

(** ** Towers: root, routing and soundness *)

Section Tower.

Variable sha256 : list byte -> list byte.

Lemma tower_in_field lvls :
  tower sha256 lvls -> Forall (Forall in_field) lvls.
Proof.
  induction 1 as [r Hr | level nl upper Hgt Hf Hnl Ht IH].
  - constructor; [constructor; [assumption | constructor] | constructor].
  - constructor; assumption.
Qed.

Lemma tower_root lvls :
  tower sha256 lvls -> exists r, getitem lvls (-1) = Ok [r] /\ in_field r.
Proof.
  induction 1 as [r Hr | level nl upper Hgt Hf Hnl Ht (r & Er & Hr)].
  - exists r. split; [reflexivity | assumption].
  - exists r. rewrite getitem_neg1_cons. split; assumption.
Qed.

(** Consecutive levels of a tower are related by the [for] loop. *)
Lemma tower_adjacent lvls :
  tower sha256 lvls ->
  forall k lower above, 0 <= k ->
    getitem lvls k = Ok lower -> getitem lvls (k + 1) = Ok above ->
    build_next_level sha256 lower = Ok above.
Proof.
  induction 1 as [r Hr | level nl upper Hgt Hf Hnl Ht IH];
    intros k lower above Hk Hlo Hab.
  - apply getitem_Ok_range in Hab; [|lia].
    change (len [[r]]) with 1 in Hab. lia.
  - destruct (Z.eq_dec k 0) as [->|Hne].
    + rewrite getitem_cons_0 in Hlo.
      rewrite (@getitem_cons_succ _ level (nl :: upper) 0) in Hab by lia.
      rewrite getitem_cons_0 in Hab. congruence.
    + rewrite getitem_cons_succ in Hab by lia.
      replace k with (k - 1 + 1) in Hlo by lia.
      rewrite getitem_cons_succ in Hlo by lia.
      apply (IH (k - 1)); [lia | assumption |].
      replace (k - 1 + 1) with k by lia. assumption.
Qed.

(** At one level: the sibling [opening] records for the node at [idx], routed
    by the position bit, hashes to the parent the build computed. *)
Lemma sibling_routes level idx x y :
  0 <= idx ->
  getitem level idx = Ok x ->
  parent_at sha256 level (2 * (idx / 2)) = Ok y ->
  exists sib,
    (if (0 <=? Z.lxor idx 1) && (Z.lxor idx 1 <? len level)
     then getitem level (Z.lxor idx 1)
     else getitem level idx) = Ok sib /\
    (let '(l, r) := if idx mod 2 =? 0 then (x, sib) else (sib, x) in
     merkle_hash2 sha256 l r) = Ok y.
Proof.
  intros Hidx Hx Hy.
  pose proof (getitem_Ok_range _ Hidx Hx) as Hlt.
  rewrite lxor_1 by assumption.
  unfold parent_at in Hy.
  destruct (mod2_cases idx) as [E|E]; rewrite E.
  - assert (2 * (idx / 2) = idx) as E2 by (Z.div_mod_to_equations; lia).
    rewrite E2, Hx in Hy. cbn [bind] in Hy.
    replace (idx + 1 - 2 * 0) with (idx + 1) by lia.
    destruct (Z.leb_spec 0 (idx + 1)); [|lia]. cbn [andb].
    change (0 =? 0) with true. cbv iota.
    destruct (Z.ltb_spec (idx + 1) (len level)).
    + destruct (getitem level (idx + 1)) as [s|]; [|discriminate].
      exists s. split; [reflexivity | exact Hy].
    + exists x. split; [assumption | exact Hy].
  - assert (2 * (idx / 2) = idx - 1) as E2 by (Z.div_mod_to_equations; lia).
    rewrite E2 in Hy.
    replace (idx - 1 + 1) with idx in Hy by lia.
    replace (idx + 1 - 2 * 1) with (idx - 1) by lia.
    assert (1 <= idx) by (Z.div_mod_to_equations; lia).
    destruct (Z.leb_spec 0 (idx - 1)); [|lia]. cbn [andb].
    destruct (Z.ltb_spec (idx - 1) (len level)); [|lia].
    destruct (Z.ltb_spec idx (len level)); [|lia].
    change (1 =? 0) with false. cbv iota.
    destruct (getitem level (idx - 1)) as [s|]; [|discriminate].
    cbn [bind] in Hy. rewrite Hx in Hy. cbn [bind] in Hy.
    exists s. split; [reflexivity | exact Hy].
Qed.

(** Soundness on a tower: from any node of the bottom level, the opening
    exists and recomputing along it reaches the single node of the top
    level. *)
Lemma tower_sound lvls :
  tower sha256 lvls ->
  forall idx x, 0 <= idx ->
    getitem (hd [] lvls) idx = Ok x ->
    exists siblings positions r,
      opening_spec lvls idx = Ok (siblings, positions) /\
      recompute_spec (merkle_hash2 sha256) x siblings positions = Ok r /\
      getitem lvls (-1) = Ok [r].
Proof.
  induction 1 as [r Hr | level nl upper Hgt Hf Hnl Ht IH];
    intros idx x Hidx Hx; cbn [hd] in Hx.
  - pose proof (getitem_Ok_range _ Hidx Hx) as Hlt.
    change (len [r]) with 1 in Hlt. assert (idx = 0) as -> by lia.
    rewrite getitem_cons_0 in Hx. injection Hx as <-.
    exists [], [], r. repeat split; reflexivity.
  - pose proof (getitem_Ok_range _ Hidx Hx) as Hlt.
    pose proof (build_next_level_len _ _ Hnl) as Hlen.
    assert (0 <= idx / 2 < len nl) as Hhalf
      by (rewrite Hlen; Z.div_mod_to_equations; lia).
    destruct (getitem_in_range _ Hhalf) as [y Hy].
    pose proof (build_next_level_index _ _ Hnl Hhalf) as Hpar.
    rewrite Hy in Hpar.
    destruct (sibling_routes _ Hidx Hx Hpar) as (sib & Hsib & Hroute).
    destruct (IH (idx / 2) y) as (ss & ps & r & Hop & Hre & Hlast);
      [lia | exact Hy |].
    exists (sib :: ss), (idx mod 2 :: ps), r.
    rewrite opening_spec_step, Hsib. cbn [bind]. rewrite Hop. cbn [bind].
    split; [reflexivity|]. split.
    + cbn [recompute_spec].
      destruct (idx mod 2 =? 0); rewrite Hroute; exact Hre.
    + rewrite getitem_neg1_cons. exact Hlast.
Qed.

End Tower.

(** ** Shape of an opening *)

Lemma opening_spec_len lvls :
  forall idx siblings positions,
    lvls <> [] ->
    opening_spec lvls idx = Ok (siblings, positions) ->
    len siblings = len lvls - 1 /\ len positions = len lvls - 1.
Proof.
  induction lvls as [|layer upper IH]; intros idx ss ps Hne E;
    [congruence|].
  destruct upper as [|layer' upper'].
  - injection E as <- <-. split; reflexivity.
  - rewrite opening_spec_step in E.
    apply bind_Ok in E as (sib & _ & E).
    apply bind_Ok in E as ([ss' ps'] & E' & [= <- <-]).
    apply IH in E' as [Hs Hp]; [|discriminate].
    rewrite (len_cons layer), (len_cons sib), (len_cons (idx mod 2)), Hs, Hp.
    lia.
Qed.

Lemma opening_spec_siblings (P : Z -> Prop) lvls :
  forall idx siblings positions,
    Forall (Forall P) lvls ->
    opening_spec lvls idx = Ok (siblings, positions) ->
    Forall P siblings.
Proof.
  induction lvls as [|layer upper IH]; intros idx ss ps Hall E.
  - injection E as <- <-. constructor.
  - destruct upper as [|layer' upper'].
    + injection E as <- <-. constructor.
    + rewrite opening_spec_step in E.
      apply bind_Ok in E as (sib & Hsib & E).
      apply bind_Ok in E as ([ss' ps'] & E' & [= <- <-]).
      inversion_clear Hall as [|? ? Hlayer Hupper].
      constructor; [|eapply IH; eauto].
      rewrite Forall_forall in Hlayer. apply Hlayer.
      destruct (_ && _); eapply getitem_In; eauto.
Qed.

(** Level [h] of an opening, in closed form: the cursor there is
    [idx / 2^h]. *)
Lemma opening_spec_at lvls :
  forall idx siblings positions,
    0 <= idx ->
    opening_spec lvls idx = Ok (siblings, positions) ->
    forall h layer, 0 <= h < len lvls - 1 ->
      getitem lvls h = Ok layer ->
      let cursor := idx / 2 ^ h in
      getitem positions h = Ok (cursor mod 2) /\
      getitem siblings h =
        (if Z.lxor cursor 1 <? len layer
         then getitem layer (Z.lxor cursor 1)
         else getitem layer cursor).
Proof.
  induction lvls as [|layer0 upper IH]; intros idx ss ps Hidx E h layer Hh Hl.
  - change (len (@nil (list Z))) with 0 in Hh. lia.
  - destruct upper as [|layer' upper'].
    + change (len [layer0]) with 1 in Hh. lia.
    + rewrite opening_spec_step in E.
      apply bind_Ok in E as (sib & Hsib & E).
      apply bind_Ok in E as ([ss' ps'] & E' & [= <- <-]).
      destruct (Z.eq_dec h 0) as [->|Hne].
      * rewrite getitem_cons_0 in Hl. injection Hl as ->.
        cbv zeta. change (2 ^ 0) with 1. rewrite Z.div_1_r.
        rewrite !getitem_cons_0. split; [reflexivity|].
        rewrite <- Hsib.
        assert (0 <= Z.lxor idx 1) by (apply Z.lxor_nonneg; lia).
        destruct (Z.leb_spec 0 (Z.lxor idx 1)); [|lia]. reflexivity.
      * rewrite (len_cons layer0) in Hh.
        replace h with (h - 1 + 1) in Hl |- * by lia.
        rewrite getitem_cons_succ in Hl by lia.
        cbv zeta. rewrite !getitem_cons_succ by lia.
        replace (idx / 2 ^ (h - 1 + 1)) with (idx / 2 / 2 ^ (h - 1)).
        -- apply (IH (idx / 2) ss' ps'); try assumption; try lia.
           apply Z.div_pos; lia.
        -- rewrite Z.div_div by (try apply Z.pow_pos_nonneg; lia).
           rewrite <- Z.pow_succ_r by lia. reflexivity.
Qed.

Section Cursor.

Variable sha256 : list byte -> list byte.

(** The cursor of [opening] stays within every level it visits. *)
Lemma tower_cursor lvls :
  tower sha256 lvls ->
  forall idx, 0 <= idx < len (hd [] lvls) ->
    forall h layer, 0 <= h -> getitem lvls h = Ok layer ->
      0 <= idx / 2 ^ h < len layer.
Proof.
  induction 1 as [r Hr | level nl upper Hgt Hf Hnl Ht IH];
    intros idx Hidx h layer Hh Hl; cbn [hd] in Hidx.
  - pose proof (getitem_Ok_range _ Hh Hl) as Hlt.
    change (len [[r]]) with 1 in Hlt. assert (h = 0) as -> by lia.
    rewrite getitem_cons_0 in Hl. injection Hl as <-.
    change (2 ^ 0) with 1. rewrite Z.div_1_r. assumption.
  - destruct (Z.eq_dec h 0) as [->|Hne].
    + rewrite getitem_cons_0 in Hl. injection Hl as <-.
      change (2 ^ 0) with 1. rewrite Z.div_1_r. assumption.
    + replace h with (h - 1 + 1) in Hl |- * by lia.
      rewrite getitem_cons_succ in Hl by lia.
      replace (idx / 2 ^ (h - 1 + 1)) with (idx / 2 / 2 ^ (h - 1)).
      * apply IH; [|lia|assumption]. cbn [hd].
        rewrite (build_next_level_len _ _ Hnl).
        Z.div_mod_to_equations. lia.
      * rewrite Z.div_div by (try apply Z.pow_pos_nonneg; lia).
        rewrite <- Z.pow_succ_r by lia. reflexivity.
Qed.

(** What a successful construction returns. *)
Lemma init_Ok leaves0 t :
  __init__ sha256 leaves0 = Ok t ->
  leaves0 <> [] /\
  leaves t = map field leaves0 /\
  hd [] (levels t) = map field leaves0 /\
  tower sha256 (levels t).
Proof.
  intros E. destruct leaves0 as [|x l].
  - discriminate.
  - destruct (@init_tower sha256 (x :: l)) as (upper & E' & Ht);
      [discriminate|].
    rewrite E' in E. injection E as <-. cbn [leaves levels hd].
    repeat split; try assumption. discriminate.
Qed.

Lemma init_len leaves0 t :
  __init__ sha256 leaves0 = Ok t -> len (leaves t) = len leaves0.
Proof.
  intros E. apply init_Ok in E as (_ & -> & _).
  unfold len. rewrite length_map. reflexivity.
Qed.

(** On a built tree every index within the leaves has an opening, the one
    the specification's algorithm computes. *)
Lemma built_opening leaves0 t index :
  __init__ sha256 leaves0 = Ok t ->
  0 <= index < len (leaves t) ->
  exists siblings positions,
    opening t index = Ok (siblings, positions) /\
    opening_spec (levels t) index = Ok (siblings, positions).
Proof.
  intros E Hi. destruct (init_Ok _ E) as (_ & Hleaves & Hhd & Ht).
  destruct (getitem_in_range _ Hi) as [x Hx].
  rewrite Hleaves, <- Hhd in Hx.
  destruct (tower_sound Ht) with (idx := index) (x := x)
    as (ss & ps & r & Hop & _); [lia | exact Hx |].
  exists ss, ps. rewrite opening_eq_spec by exact Hi.
  split; exact Hop.
Qed.

End Cursor.

Lemma recompute_spec_ext {V} (h1 h2 : V -> V -> result V) :
  (forall l r, h1 l r = h2 l r) ->
  forall positions siblings needle,
    recompute_spec h1 needle siblings positions =
    recompute_spec h2 needle siblings positions.
Proof.
  intros Hext. induction positions as [|pos ps IH]; intros ss needle;
    [reflexivity|].
  destruct ss as [|sib ss]; [reflexivity|]. cbn [recompute_spec].
  destruct (if pos =? 0 then (needle, sib) else (sib, needle)) as [l r].
  rewrite Hext. destruct (h2 l r); cbn [bind]; [apply IH | reflexivity].
Qed.

Lemma poseidon_pair_gadget (hash : Z -> Z -> result Z) l r :
  poseidon_pair (gadget_of hash) l r = hash l r.
Proof.
  unfold poseidon_pair, gadget_of.
  rewrite getitem_cons_0. cbn [bind].
  change (getitem [l; r] 1) with (Ok r). cbn [bind].
  destruct (hash l r); cbn [bind]; [apply getitem_cons_0 | reflexivity].
Qed.

(** * The claims *)

Section TreeClaims.

Variable sha256 : list byte -> list byte.

(** C1 -- Inclusion soundness.  For every non-empty leaf sequence and every
    valid leaf index [i], the tree is built, [opening(i)] returns
    [(siblings, positions)], and the recomputation walk of the circuit, run
    on the tree's leaf [i] with these siblings and positions and with the
    pair hash the tree was built with, returns the value [root()] returns.
    The tree's leaf [i] is the reduction of the supplied leaf [i]. *)
Theorem inclusion_soundness (leaves0 : list Z) (i : Z) :
  leaves0 <> [] ->
  0 <= i < len leaves0 ->
  exists t x leaf siblings positions r,
    __init__ sha256 leaves0 = Ok t /\
    getitem leaves0 i = Ok x /\
    getitem (leaves t) i = Ok leaf /\ leaf = field x /\
    opening t i = Ok (siblings, positions) /\
    root t = Ok r /\
    forall rec,
      fst (recompute_walk (gadget_of (merkle_hash2 sha256))
             leaf siblings positions rec) = Ok r.
Proof.
  intros Hne Hi.
  destruct (init_tower sha256 Hne) as (upper & Einit & Ht).
  set (t := mkMerkleTree (map field leaves0) (map field leaves0 :: upper))
    in *.
  destruct (getitem_in_range _ Hi) as [x Hx].
  assert (getitem (map field leaves0) i = Ok (field x)) as Hleaf.
  { rewrite getitem_nonneg in Hx |- * by lia. rewrite nth_error_map.
    destruct (nth_error leaves0 (Z.to_nat i)); [|discriminate].
    injection Hx as ->. reflexivity. }
  destruct (tower_sound Ht) with (idx := i) (x := field x)
    as (ss & ps & r & Hop & Hre & Hlast); [lia | exact Hleaf |].
  assert (len (leaves t) = len leaves0) as Hlen
    by (unfold len; cbn [t leaves]; rewrite length_map; reflexivity).
  exists t, x, (field x), ss, ps, r.
  split; [exact Einit|]. split; [exact Hx|]. split; [exact Hleaf|].
  split; [reflexivity|]. split; [|split].
  - rewrite opening_eq_spec by (rewrite Hlen; exact Hi). exact Hop.
  - unfold root. cbn [t levels]. rewrite Hlast. reflexivity.
  - intros rec. rewrite recompute_walk_eq.
    + rewrite (recompute_spec_ext _ _
                 (poseidon_pair_gadget (merkle_hash2 sha256))).
      exact Hre.
    + apply opening_spec_len in Hop as [-> ->]; [reflexivity|discriminate].
Qed.

(** C2 -- Build-level invariant.  For a tree built from a non-empty leaf
    sequence: level 0 is the field-reduced leaf sequence; the last level has
    exactly one element; and for consecutive levels [i], [i+1] the upper one
    has [ceil(len / 2)] nodes and its node [j] is the hash of nodes [2j] and
    [2j+1] of the lower one, where node [2j] stands for both operands when
    [2j+1] is out of range. *)
Theorem build_level_invariant (leaves0 : list Z) :
  leaves0 <> [] ->
  exists t,
    __init__ sha256 leaves0 = Ok t /\
    getitem (levels t) 0 = Ok (map field leaves0) /\
    (exists r, getitem (levels t) (-1) = Ok [r]) /\
    forall i lower above,
      0 <= i ->
      getitem (levels t) i = Ok lower ->
      getitem (levels t) (i + 1) = Ok above ->
      len above = ceil_half (len lower) /\
      forall j, 0 <= j < len above ->
        exists a b p,
          getitem lower (2 * j) = Ok a /\
          (2 * j + 1 < len lower -> getitem lower (2 * j + 1) = Ok b) /\
          (len lower <= 2 * j + 1 -> b = a) /\
          merkle_hash2 sha256 a b = Ok p /\
          getitem above j = Ok p.
Proof.
  intros Hne.
  destruct (init_tower sha256 Hne) as (upper & Einit & Ht).
  eexists. split; [exact Einit|]. cbn [levels].
  split; [apply getitem_cons_0|]. split.
  - destruct (tower_root Ht) as (r & Hr & _). eauto.
  - intros i lower above Hi Hlo Hab.
    pose proof (tower_adjacent Ht Hi Hlo Hab) as Hnl.
    split.
    + rewrite (build_next_level_len _ _ Hnl). unfold ceil_half.
      Z.div_mod_to_equations. lia.
    + intros j Hj.
      pose proof (build_next_level_index _ _ Hnl Hj) as Hpar.
      destruct (getitem_in_range _ Hj) as [p Hp].
      rewrite Hp in Hpar. unfold parent_at in Hpar.
      apply bind_Ok in Hpar as (a & Ha & Hpar).
      apply bind_Ok in Hpar as (b & Hb & Hhash).
      exists a, b, p. split; [exact Ha|].
      destruct (Z.ltb_spec (2 * j + 1) (len lower)).
      * split; [intros _; exact Hb|]. split; [intros; lia|].
        split; assumption.
      * injection Hb as <-. split; [intros; lia|].
        split; [reflexivity|]. split; assumption.
Qed.

(** C3 -- Opening extraction.  For a built tree and a valid index,
    [opening(index)] returns what the specification's cursor algorithm
    returns; the siblings and the positions each have [height()] elements;
    and at level [h] the cursor is [index div 2^h], the position is the
    cursor modulo 2, and the sibling is [level[cursor XOR 1]] when that index
    is within the level and [level[cursor]] otherwise. *)
Theorem opening_algorithm (leaves0 : list Z) (index : Z) :
  leaves0 <> [] ->
  0 <= index < len leaves0 ->
  exists t siblings positions,
    __init__ sha256 leaves0 = Ok t /\
    opening t index = Ok (siblings, positions) /\
    opening_spec (levels t) index = Ok (siblings, positions) /\
    len siblings = height t /\
    len positions = height t /\
    forall h layer,
      0 <= h < height t ->
      getitem (levels t) h = Ok layer ->
      let cursor := index / 2 ^ h in
      getitem positions h = Ok (cursor mod 2) /\
      getitem siblings h =
        (if Z.lxor cursor 1 <? len layer
         then getitem layer (Z.lxor cursor 1)
         else getitem layer cursor).
Proof.
  intros Hne Hi.
  destruct (init_tower sha256 Hne) as (upper & Einit & _).
  set (t := mkMerkleTree (map field leaves0) (map field leaves0 :: upper))
    in *.
  destruct (@built_opening sha256 leaves0 t index Einit)
    as (ss & ps & Hop & Hspec);
    [rewrite (init_len _ _ Einit); exact Hi|].
  exists t, ss, ps. split; [exact Einit|]. split; [exact Hop|].
  split; [exact Hspec|].
  destruct (init_Ok _ _ Einit) as (_ & _ & Hhd & Ht).
  assert (levels t <> []) as Hlv by (inversion Ht; discriminate).
  destruct (opening_spec_len _ Hlv Hspec) as [Hs Hp].
  split; [exact Hs|]. split; [exact Hp|].
  intros h layer Hh Hl. apply (opening_spec_at (levels t)); try assumption.
  lia.
Qed.

End TreeClaims.

Lemma opening_Ok_range self index sp :
  opening self index = Ok sp -> 0 <= index < len (leaves self).
Proof.
  unfold opening. rewrite Z.geb_leb.
  destruct (Z.ltb_spec index 0); [discriminate|].
  destruct (Z.leb_spec (len (leaves self)) index); [discriminate|]. lia.
Qed.

Section TreeErrorClaims.

Variable sha256 : list byte -> list byte.


(** C7 -- Construction fails with [ValueError] (the specification's
    [InvalidInput]) when and only when the leaf sequence is empty; for every
    non-empty leaf sequence it returns a tree. *)
Theorem construction_fails_iff_empty (leaves0 : list Z) :
  (__init__ sha256 leaves0 = Raise ValueError <-> leaves0 = []) /\
  (leaves0 <> [] -> exists t, __init__ sha256 leaves0 = Ok t).
Proof.
  assert (leaves0 <> [] -> exists t, __init__ sha256 leaves0 = Ok t) as Hok.
  { intros Hne. destruct (init_tower sha256 Hne) as (upper & E & _). eauto. }
  split; [|exact Hok]. split.
  - intros E. destruct leaves0 as [|x l]; [reflexivity|].
    destruct Hok as [t Et]; [discriminate|]. congruence.
  - intros ->. reflexivity.
Qed.

(** C8 -- Opening bounds.  On every built tree, whatever its size,
    [opening(index)] raises [IndexError] (the specification's
    [IndexOutOfRange]) exactly when [index < 0] or [index >= leafCount], and
    returns an opening for every index in [0, leafCount). *)
Theorem opening_bounds (leaves0 : list Z) (t : MerkleTree) (index : Z) :
  __init__ sha256 leaves0 = Ok t ->
  (opening t index = Raise IndexError <->
     index < 0 \/ index >= len leaves0) /\
  (0 <= index < len leaves0 ->
     exists siblings positions, opening t index = Ok (siblings, positions)).
Proof.
  intros E. pose proof (init_len _ _ E) as Hlen.
  assert (0 <= index < len leaves0 ->
          exists siblings positions,
            opening t index = Ok (siblings, positions)) as Hok.
  { intros Hi. rewrite <- Hlen in Hi.
    destruct (built_opening _ _ E Hi) as (ss & ps & Hop & _). eauto. }
  split; [|exact Hok]. split.
  - intros Hraise.
    destruct (Z.lt_ge_cases index 0); [lia|].
    destruct (Z.lt_ge_cases index (len leaves0)); [|lia].
    destruct Hok as (ss & ps & Hop); [lia|]. congruence.
  - intros Hout. unfold opening. rewrite Hlen, Z.geb_leb.
    destruct (Z.ltb_spec index 0); [reflexivity|].
    destruct (Z.leb_spec (len leaves0) index); [reflexivity|]. lia.
Qed.

(** C9 -- Whenever [opening(index)] records a self-duplicated sibling at a
    level (the cursor's [XOR 1] neighbour is past the end of the level, so
    the sibling is the cursor's own node), the position bit recorded at that
    level is 0: the lone trailing node is the left operand. *)
Theorem self_sibling_is_left (leaves0 : list Z) (t : MerkleTree) (index : Z)
    (siblings positions : list Z) :
  __init__ sha256 leaves0 = Ok t ->
  opening t index = Ok (siblings, positions) ->
  forall h layer,
    0 <= h < height t ->
    getitem (levels t) h = Ok layer ->
    let cursor := index / 2 ^ h in
    Z.lxor cursor 1 >= len layer ->
    exists node,
      getitem layer cursor = Ok node /\
      getitem siblings h = Ok node /\
      getitem positions h = Ok 0.
Proof.
  intros E Hop h layer Hh Hl cursor Hdup.
  pose proof (opening_Ok_range _ _ Hop) as Hi.
  destruct (init_Ok _ _ E) as (_ & Hleaves & Hhd & Ht).
  rewrite opening_eq_spec in Hop by exact Hi.
  destruct (@opening_spec_at (levels t) index siblings positions)
    with (h := h) (layer := layer) as [Hpos Hsib];
    [lia | exact Hop | exact Hh | exact Hl |].
  fold cursor in Hpos, Hsib.
  assert (0 <= cursor < len layer) as Hcur.
  { apply (tower_cursor Ht) with (h := h); [|lia|exact Hl].
    rewrite Hhd, <- Hleaves. exact Hi. }
  destruct (getitem_in_range _ Hcur) as [node Hnode].
  destruct (Z.ltb_spec (Z.lxor cursor 1) (len layer)); [lia|].
  exists node. split; [exact Hnode|]. split; [congruence|].
  rewrite Hpos. f_equal.
  rewrite lxor_1 in Hdup by lia.
  destruct (mod2_cases cursor); lia.
Qed.

(** C10 -- Every element of every level of a built tree is a field element
    in [0, FIELD_MODULUS): the leaves are reduced at construction and every
    parent is a hash output reduced modulo [FIELD_MODULUS]; so are [root()]
    and every sibling [opening] returns. *)
Theorem levels_in_field (leaves0 : list Z) (t : MerkleTree) :
  __init__ sha256 leaves0 = Ok t ->
  Forall in_field (leaves t) /\
  Forall (Forall in_field) (levels t) /\
  (forall l r p, merkle_hash2 sha256 l r = Ok p -> in_field p) /\
  (exists r, root t = Ok r /\ in_field r) /\
  (forall index siblings positions,
     opening t index = Ok (siblings, positions) ->
     Forall in_field siblings).
Proof.
  intros E. destruct (init_Ok _ _ E) as (_ & Hleaves & _ & Ht).
  pose proof (tower_in_field Ht) as Hall.
  split; [rewrite Hleaves; apply Forall_in_field_map_field|].
  split; [exact Hall|].
  split; [intros l r p; apply merkle_hash2_in_field|]. split.
  - destruct (tower_root Ht) as (r & Hlast & Hr).
    exists r. unfold root. rewrite Hlast. split; [reflexivity | exact Hr].
  - intros index ss ps Hop.
    pose proof (opening_Ok_range _ _ Hop) as Hi.
    rewrite opening_eq_spec in Hop by exact Hi.
    eapply opening_spec_siblings; eauto.
Qed.

End TreeErrorClaims.

Section CircuitClaims.

Variable LinComb : Type.
Variable poseidon_circuit_hash : list LinComb -> result (list LinComb).
Variable sub : LinComb -> LinComb -> LinComb.
Variable assert_zero : LinComb -> result unit.

(** C4 -- Recompute walk.  Given siblings and positions of equal length with
    every position in {0, 1}, the walk of the circuit returns what the
    specification's [recompute] returns: [needle := leaf], then for each [h]
    in order [(left, right) := (needle, siblings[h])] when
    [positions[h] == 0] and [(siblings[h], needle)] otherwise, and
    [needle := hash(left, right)], for an arbitrary (not necessarily
    commutative) hash.  The backend is asked for one hash per level, and the
    circuit then asserts that the final needle minus the public root is
    zero. *)
Theorem recompute_walk_correct (leaf : LinComb) (siblings : list LinComb)
    (positions : list Z) (rec : list (event LinComb)) :
  len siblings = len positions ->
  Forall valid_position positions ->
  exists hashed,
    recompute_walk poseidon_circuit_hash leaf siblings positions rec =
      (recompute_spec (poseidon_pair poseidon_circuit_hash)
         leaf siblings positions,
       rec ++ map Hashed hashed) /\
    forall public_root needle,
      recompute_spec (poseidon_pair poseidon_circuit_hash)
        leaf siblings positions = Ok needle ->
      len hashed = len positions /\
      merkle_opening_circuit poseidon_circuit_hash sub assert_zero
        leaf siblings positions public_root rec =
        (assert_zero (sub needle public_root),
         (rec ++ map Hashed hashed) ++
           [AssertedZero (sub needle public_root)]).
Proof.
  intros Hlen Hvalid.
  destruct (@recompute_walk_record LinComb poseidon_circuit_hash
              leaf siblings positions rec Hlen) as (hashed & E & Hn).
  exists hashed. split; [exact E|].
  intros public_root needle Hneedle. split; [eapply Hn; eauto|].
  unfold merkle_opening_circuit.
  unfold cbind at 1, lift at 1.
  rewrite Hlen, Z.eqb_refl. cbn [py_assert].
  unfold cbind at 1, lift at 1.
  rewrite check_positions_eq.
  apply first_invalid_None with (k := 0%nat) in Hvalid. rewrite Hvalid.
  unfold cbind at 1. rewrite E, Hneedle. reflexivity.
Qed.

(** C6, as the code has it -- The circuit checks the lengths first: when the
    siblings and the positions differ in length it raises the length-mismatch
    assertion.  When the lengths agree and some position is neither 0 nor 1
    it raises the invalid-position assertion, for the first such position.
    In both cases the record of the backend is left as it was: nothing has
    been hashed. *)
Theorem precondition_checks (leaf : LinComb) (siblings : list LinComb)
    (positions : list Z) (public_root : LinComb) (rec : list (event LinComb)) :
  (len siblings <> len positions ->
     merkle_opening_circuit poseidon_circuit_hash sub assert_zero
       leaf siblings positions public_root rec =
     (Raise (AssertionError
               (LengthMismatch (len siblings) (len positions))), rec)) /\
  (len siblings = len positions ->
   ~ Forall valid_position positions ->
     exists h pos,
       getitem positions h = Ok pos /\
       ~ valid_position pos /\
       (forall h' pos', 0 <= h' < h ->
          getitem positions h' = Ok pos' -> valid_position pos') /\
       merkle_opening_circuit poseidon_circuit_hash sub assert_zero
         leaf siblings positions public_root rec =
       (Raise (AssertionError (InvalidPosition h pos)), rec)).
Proof.
  split.
  - intros Hne. unfold merkle_opening_circuit.
    unfold cbind at 1, lift at 1.
    destruct (Z.eqb_spec (len siblings) (len positions)); [contradiction|].
    reflexivity.
  - intros Hlen Hbad.
    destruct (first_invalid 0 positions) as [[h pos]|] eqn:Ef.
    + destruct (first_invalid_Some _ _ Ef) as (Hle & Hget & Hinv & Hbefore).
      change (Z.of_nat 0) with 0 in *. rewrite Z.sub_0_r in Hget.
      exists h, pos. split; [exact Hget|]. split; [exact Hinv|]. split.
      * intros h' pos' Hh' Hg. apply (Hbefore h' pos'); [lia|].
        rewrite Z.sub_0_r. exact Hg.
      * unfold merkle_opening_circuit.
        unfold cbind at 1, lift at 1.
        rewrite Hlen, Z.eqb_refl. cbn [py_assert].
        unfold cbind at 1, lift at 1.
        rewrite check_positions_eq, Ef. reflexivity.
    + apply first_invalid_None in Ef. contradiction.
Qed.

End CircuitClaims.

(** * Concrete runs *)

Example sha256_constants :
  firstn 2 SHA256.K = [0x428a2f98; 0x71374491] /\
  last SHA256.K 0 = 0xc67178f2 /\
  length SHA256.K = 64%nat /\
  firstn 2 SHA256.H0 = [0x6a09e667; 0xbb67ae85] /\
  length SHA256.H0 = 8%nat.
Proof. repeat split. Qed.

(** FIPS 180-4 test vector: SHA-256 of the three bytes "abc". *)
Example sha256_abc :
  SHA256.digest_Z [97; 98; 99] =
  [0xba; 0x78; 0x16; 0xbf; 0x8f; 0x01; 0xcf; 0xea;
   0x41; 0x41; 0x40; 0xde; 0x5d; 0xae; 0x22; 0x23;
   0xb0; 0x03; 0x61; 0xa3; 0x96; 0x17; 0x7a; 0x9c;
   0xb4; 0x10; 0xff; 0x61; 0xf2; 0x00; 0x15; 0xad].
Proof. vm_compute. reflexivity. Qed.

(** FIPS 180-4 test vector: SHA-256 of the empty message. *)
Example sha256_empty :
  from_bytes (SHA256.digest []) =
  0xe3b0c44298fc1c149afbf4c8996fb92427ae41e4649b934ca495991b7852b855.
Proof. vm_compute. reflexivity. Qed.

(** The tree over the leaves [1, 2, 3]: the odd first level duplicates its
    last node. *)
Definition h12 : Z :=
  9571627351759468719423877950817835893802993199359003378871081953658725994859.
Definition h33 : Z :=
  9404784554520095950121262226986883124176008753514345450020239104173809739669.
Definition root123 : Z :=
  10426936954168850965707568433918431766818062032557278400349277307442458168242.

Definition tree123 : MerkleTree :=
  {| leaves := [1; 2; 3];
     levels := [[1; 2; 3]; [h12; h33]; [root123]] |}.

Example tree123_built : __init__ SHA256.digest [1; 2; 3] = Ok tree123.
Proof. vm_compute. reflexivity. Qed.

Example tree123_hashes :
  merkle_hash2 SHA256.digest 1 2 = Ok h12 /\
  merkle_hash2 SHA256.digest 3 3 = Ok h33 /\
  merkle_hash2 SHA256.digest h12 h33 = Ok root123.
Proof. vm_compute. repeat split. Qed.

Example tree123_opening_2 : opening tree123 2 = Ok ([3; h12], [0; 1]).
Proof. vm_compute. reflexivity. Qed.

(** The pair hash depends on the order of its operands. *)
Example pair_hash_order_matters :
  merkle_hash2 SHA256.digest 1 2 <> merkle_hash2 SHA256.digest 2 1.
Proof. vm_compute. intros [= H]. Qed.

(** A negative leaf is reduced at construction; hashing it unreduced would
    raise. *)
Example negative_leaf :
  merkle_hash2 SHA256.digest (-1) (-1) = Raise OverflowError /\
  exists t, __init__ SHA256.digest [-1] = Ok t /\
            levels t = [[FIELD_MODULUS - 1]].
Proof.
  split; [reflexivity|]. eexists. split; vm_compute; reflexivity.
Qed.

(** ** Instances of the claims *)

Lemma inclusion_soundness_witness :
  [1; 2; 3] <> [] /\ 0 <= 2 < len [1; 2; 3] /\
  exists t x leaf siblings positions r,
    __init__ SHA256.digest [1; 2; 3] = Ok t /\
    getitem [1; 2; 3] 2 = Ok x /\
    getitem (leaves t) 2 = Ok leaf /\ leaf = field x /\
    opening t 2 = Ok (siblings, positions) /\
    root t = Ok r /\
    forall rec,
      fst (recompute_walk (gadget_of (merkle_hash2 SHA256.digest))
             leaf siblings positions rec) = Ok r.
Proof.
  assert (H1 : [1; 2; 3] <> []) by discriminate.
  assert (H2 : 0 <= 2 < len [1; 2; 3]) by (split; [apply Z.leb_le | apply Z.ltb_lt]; reflexivity).
  split; [exact H1|]. split; [exact H2|].
  exact (@inclusion_soundness SHA256.digest [1; 2; 3] 2 H1 H2).
Defined.

Lemma build_level_invariant_witness :
  [1; 2; 3] <> [] /\
  exists t,
    __init__ SHA256.digest [1; 2; 3] = Ok t /\
    getitem (levels t) 0 = Ok (map field [1; 2; 3]) /\
    (exists r, getitem (levels t) (-1) = Ok [r]) /\
    forall i lower above,
      0 <= i ->
      getitem (levels t) i = Ok lower ->
      getitem (levels t) (i + 1) = Ok above ->
      len above = ceil_half (len lower) /\
      forall j, 0 <= j < len above ->
        exists a b p,
          getitem lower (2 * j) = Ok a /\
          (2 * j + 1 < len lower -> getitem lower (2 * j + 1) = Ok b) /\
          (len lower <= 2 * j + 1 -> b = a) /\
          merkle_hash2 SHA256.digest a b = Ok p /\
          getitem above j = Ok p.
Proof.
  assert (H1 : [1; 2; 3] <> []) by discriminate.
  split; [exact H1|].
  exact (@build_level_invariant SHA256.digest [1; 2; 3] H1).
Defined.

Lemma opening_algorithm_witness :
  [1; 2; 3] <> [] /\ 0 <= 2 < len [1; 2; 3] /\
  exists t siblings positions,
    __init__ SHA256.digest [1; 2; 3] = Ok t /\
    opening t 2 = Ok (siblings, positions) /\
    opening_spec (levels t) 2 = Ok (siblings, positions) /\
    len siblings = height t /\
    len positions = height t /\
    forall h layer,
      0 <= h < height t ->
      getitem (levels t) h = Ok layer ->
      let cursor := 2 / 2 ^ h in
      getitem positions h = Ok (cursor mod 2) /\
      getitem siblings h =
        (if Z.lxor cursor 1 <? len layer
         then getitem layer (Z.lxor cursor 1)
         else getitem layer cursor).
Proof.
  assert (H1 : [1; 2; 3] <> []) by discriminate.
  assert (H2 : 0 <= 2 < len [1; 2; 3]) by (split; [apply Z.leb_le | apply Z.ltb_lt]; reflexivity).
  split; [exact H1|]. split; [exact H2|].
  exact (@opening_algorithm SHA256.digest [1; 2; 3] 2 H1 H2).
Defined.

Lemma recompute_walk_correct_witness :
  len [3; h12] = len [0; 1] /\
  Forall valid_position [0; 1] /\
  exists hashed,
    recompute_walk (gadget_of (merkle_hash2 SHA256.digest))
      3 [3; h12] [0; 1] [] =
      (recompute_spec (poseidon_pair (gadget_of (merkle_hash2 SHA256.digest)))
         3 [3; h12] [0; 1],
       [] ++ map Hashed hashed) /\
    forall public_root needle,
      recompute_spec (poseidon_pair (gadget_of (merkle_hash2 SHA256.digest)))
        3 [3; h12] [0; 1] = Ok needle ->
      len hashed = len [0; 1] /\
      merkle_opening_circuit (gadget_of (merkle_hash2 SHA256.digest))
        Z.sub (fun _ => Ok tt) 3 [3; h12] [0; 1] public_root [] =
        ((fun _ : Z => Ok tt) (needle - public_root),
         ([] ++ map Hashed hashed) ++ [AssertedZero (needle - public_root)]).
Proof.
  assert (H1 : len [3; h12] = len [0; 1]) by reflexivity.
  assert (H2 : Forall valid_position [0; 1]).
  { constructor; [left; reflexivity|].
    constructor; [right; reflexivity | constructor]. }
  split; [exact H1|]. split; [exact H2|].
  exact (@recompute_walk_correct Z (gadget_of (merkle_hash2 SHA256.digest))
           Z.sub (fun _ => Ok tt) 3 [3; h12] [0; 1] [] H1 H2).
Defined.

(** The run behind the instance above: two hashes, then the assertion on
    [needle - public_root], which is zero for the root of the tree. *)
Example circuit_run_tree123 :
  merkle_opening_circuit (gadget_of (merkle_hash2 SHA256.digest))
    Z.sub (fun _ => Ok tt) 3 [3; h12] [0; 1] root123 [] =
  (Ok tt, [Hashed [3; 3]; Hashed [h12; h33]; AssertedZero 0]).
Proof. vm_compute. reflexivity. Qed.

(** C6, as stated, fails: with no sibling and the single position 2 (which is
    neither 0 nor 1) the circuit raises the length-mismatch assertion, not
    the invalid-position one. *)
Lemma invalid_position_behind_length_mismatch :
  ~ valid_position 2 /\
  fst (merkle_opening_circuit (gadget_of (merkle_hash2 SHA256.digest))
         Z.sub (fun _ => Ok tt) 3 [] [2] root123 []) =
    Raise (AssertionError (LengthMismatch 0 1)) /\
  forall h pos,
    fst (merkle_opening_circuit (gadget_of (merkle_hash2 SHA256.digest))
           Z.sub (fun _ => Ok tt) 3 [] [2] root123 []) <>
    Raise (AssertionError (InvalidPosition h pos)).
Proof.
  split; [intros [H|H]; discriminate H|].
  split; [reflexivity|]. intros h pos. discriminate.
Qed.

Lemma opening_bounds_witness :
  __init__ SHA256.digest [1; 2; 3] = Ok tree123 /\
  (opening tree123 3 = Raise IndexError <-> 3 < 0 \/ 3 >= len [1; 2; 3]) /\
  (0 <= 3 < len [1; 2; 3] ->
     exists siblings positions, opening tree123 3 = Ok (siblings, positions)).
Proof.
  assert (H1 : __init__ SHA256.digest [1; 2; 3] = Ok tree123)
    by (vm_compute; reflexivity).
  split; [exact H1|].
  exact (@opening_bounds SHA256.digest [1; 2; 3] tree123 3 H1).
Defined.

Lemma self_sibling_is_left_witness :
  __init__ SHA256.digest [1; 2; 3] = Ok tree123 /\
  opening tree123 2 = Ok ([3; h12], [0; 1]) /\
  0 <= 0 < height tree123 /\
  getitem (levels tree123) 0 = Ok [1; 2; 3] /\
  Z.lxor (2 / 2 ^ 0) 1 >= len [1; 2; 3] /\
  exists node,
    getitem [1; 2; 3] (2 / 2 ^ 0) = Ok node /\
    getitem [3; h12] 0 = Ok node /\
    getitem [0; 1] 0 = Ok 0.
Proof.
  assert (H1 : __init__ SHA256.digest [1; 2; 3] = Ok tree123)
    by (vm_compute; reflexivity).
  assert (H2 : opening tree123 2 = Ok ([3; h12], [0; 1]))
    by (vm_compute; reflexivity).
  assert (H3 : 0 <= 0 < height tree123) by (split; [apply Z.leb_le | apply Z.ltb_lt]; reflexivity).
  assert (H4 : getitem (levels tree123) 0 = Ok [1; 2; 3]) by reflexivity.
  assert (H5 : Z.lxor (2 / 2 ^ 0) 1 >= len [1; 2; 3])
    by (apply Z.le_ge, Z.leb_le; reflexivity).
  split; [exact H1|]. split; [exact H2|]. split; [exact H3|].
  split; [exact H4|]. split; [exact H5|].
  exact (@self_sibling_is_left SHA256.digest [1; 2; 3] tree123 2
           [3; h12] [0; 1] H1 H2 0 [1; 2; 3] H3 H4 H5).
Defined.

Lemma levels_in_field_witness :
  __init__ SHA256.digest [1; 2; 3] = Ok tree123 /\
  Forall in_field (leaves tree123) /\
  Forall (Forall in_field) (levels tree123) /\
  (forall l r p, merkle_hash2 SHA256.digest l r = Ok p -> in_field p) /\
  (exists r, root tree123 = Ok r /\ in_field r) /\
  (forall index siblings positions,
     opening tree123 index = Ok (siblings, positions) ->
     Forall in_field siblings).
Proof.
  assert (H1 : __init__ SHA256.digest [1; 2; 3] = Ok tree123)
    by (vm_compute; reflexivity).
  split; [exact H1|].
  exact (@levels_in_field SHA256.digest [1; 2; 3] tree123 H1).
Defined.

(** * Further properties of the code *)

(** ** The 32-byte encoding of [sha256_to_field] *)

(** The bytes [to_bytes] returns when it returns. *)
Definition be_bytes (n : nat) (v : Z) : list byte :=
  map (fun k => byte_of_Z (v / 256 ^ Z.of_nat k)) (rev (seq 0 n)).

(** The range test of [to_bytes 32]. *)
Definition fits32 (v : Z) : bool := (0 <=? v) && (v <? 256 ^ Z.of_nat 32).

Lemma fits32_iff v : fits32 v = true <-> 0 <= v < 2 ^ 256.
Proof.
  unfold fits32. change (256 ^ Z.of_nat 32) with (2 ^ 256).
  rewrite andb_true_iff, Z.leb_le, Z.ltb_lt. reflexivity.
Qed.

Lemma to_bytes_32 v :
  to_bytes 32 v = if fits32 v then Ok (be_bytes 32 v) else Raise OverflowError.
Proof.
  unfold to_bytes, fits32. rewrite Z.geb_leb.
  destruct (Z.ltb_spec v 0); destruct (Z.leb_spec 0 v); try lia;
    [reflexivity|]. cbn [andb].
  destruct (Z.leb_spec (256 ^ Z.of_nat 32) v);
    destruct (Z.ltb_spec v (256 ^ Z.of_nat 32)); try lia; reflexivity.
Qed.

Lemma byte_of_Z_value z : Z.of_N (Byte.to_N (byte_of_Z z)) = z mod 256.
Proof.
  pose proof (Z.mod_pos_bound z 256 eq_refl) as Hb.
  unfold byte_of_Z.
  destruct (Byte.of_N (Z.to_N (z mod 256))) as [b|] eqn:E.
  - apply Byte.to_of_N in E. rewrite E. apply Z2N.id. lia.
  - apply Byte.of_N_None_iff in E. lia.
Qed.

Lemma from_bytes_fold bs acc :
  fold_left (fun a b => a * 256 + Z.of_N (Byte.to_N b)) bs acc =
  acc * 256 ^ len bs + from_bytes bs.
Proof.
  unfold from_bytes. revert acc.
  induction bs as [|b bs IH]; intros acc; cbn [fold_left].
  - change (len (@nil byte)) with 0. rewrite Z.pow_0_r. lia.
  - rewrite IH, (IH (0 * 256 + _)), len_cons.
    rewrite Z.pow_add_r by (try apply len_nonneg; lia). lia.
Qed.

Lemma from_bytes_cons b bs :
  from_bytes (b :: bs) = Z.of_N (Byte.to_N b) * 256 ^ len bs + from_bytes bs.
Proof.
  unfold from_bytes at 1. cbn [fold_left]. rewrite from_bytes_fold. lia.
Qed.

Lemma be_bytes_length n v : length (be_bytes n v) = n.
Proof. unfold be_bytes. rewrite length_map, length_rev, length_seq. reflexivity. Qed.

Lemma be_bytes_succ n v :
  be_bytes (S n) v = byte_of_Z (v / 256 ^ Z.of_nat n) :: be_bytes n v.
Proof.
  unfold be_bytes. rewrite seq_S, rev_app_distr. reflexivity.
Qed.

(** Decoding the big-endian encoding gives the integer back (modulo the
    width). *)
Lemma from_bytes_be_bytes n v : from_bytes (be_bytes n v) = v mod 256 ^ Z.of_nat n.
Proof.
  induction n as [|n IH].
  - change (be_bytes 0 v) with (@nil byte). rewrite Z.mod_1_r. reflexivity.
  - rewrite be_bytes_succ, from_bytes_cons, IH, byte_of_Z_value.
    unfold len. rewrite be_bytes_length.
    rewrite Nat2Z.inj_succ, Z.pow_succ_r by lia.
    rewrite (Z.mul_comm 256), Z.rem_mul_r by (try apply Z.pow_nonzero; lia).
    lia.
Qed.

Lemma message_from values :
  forall acc,
    for_each values (fun h v => bs <- to_bytes 32 v ;; Ok (h ++ bs)) acc =
    if forallb fits32 values
    then Ok (acc ++ concat (map (be_bytes 32) values))
    else Raise OverflowError.
Proof.
  induction values as [|v vs IH]; intros acc; cbn [for_each forallb map concat].
  - rewrite app_nil_r. reflexivity.
  - rewrite to_bytes_32. destruct (fits32 v); cbn [bind andb]; [|reflexivity].
    rewrite IH, <- app_assoc. reflexivity.
Qed.

Lemma hashed_message_eq values :
  hashed_message values =
  if forallb fits32 values
  then Ok (concat (map (be_bytes 32) values))
  else Raise OverflowError.
Proof. unfold hashed_message. rewrite message_from. reflexivity. Qed.

Lemma app_inj_length {A} (a c b d : list A) :
  length a = length c -> a ++ b = c ++ d -> a = c /\ b = d.
Proof.
  revert c. induction a as [|x a IH]; intros [|y c] Hl E;
    try discriminate; [split; [reflexivity | exact E]|].
  injection E as -> E. injection Hl as Hl.
  destruct (IH c Hl E) as [-> ->]. split; reflexivity.
Qed.

Lemma encoding_injective vs :
  forall vs',
    forallb fits32 vs = true -> forallb fits32 vs' = true ->
    concat (map (be_bytes 32) vs) = concat (map (be_bytes 32) vs') ->
    vs = vs'.
Proof.
  induction vs as [|v vs IH]; intros [|v' vs'] Hf Hf' E;
    cbn [map concat forallb] in *.
  - reflexivity.
  - apply (f_equal (@length byte)) in E.
    rewrite length_app, be_bytes_length in E. discriminate.
  - apply (f_equal (@length byte)) in E.
    rewrite length_app, be_bytes_length in E. discriminate.
  - apply andb_true_iff in Hf as [Hv Hf], Hf' as [Hv' Hf'].
    apply app_inj_length in E as [Ev E];
      [|rewrite !be_bytes_length; reflexivity].
    apply (f_equal from_bytes) in Ev. rewrite !from_bytes_be_bytes in Ev.
    apply fits32_iff in Hv, Hv'.
    change (256 ^ Z.of_nat 32) with (2 ^ 256) in Ev.
    rewrite !Z.mod_small in Ev by assumption.
    subst v'. f_equal. apply IH; assumption.
Qed.

Section Encoding.

Variable sha256 : list byte -> list byte.

(** X1 -- The digest input of [sha256_to_field] determines the values: the
    message is 32 bytes per value, and no other list of values (of any
    length) is hashed through the same message. *)
Theorem hashed_message_injective (values : list Z) (m : list byte) :
  hashed_message values = Ok m ->
  len m = 32 * len values /\
  sha256_to_field sha256 values = Ok (from_bytes (sha256 m) mod FIELD_MODULUS) /\
  forall values', hashed_message values' = Ok m -> values' = values.
Proof.
  intros E. rewrite hashed_message_eq in E.
  destruct (forallb fits32 values) eqn:Hf; [|discriminate].
  injection E as <-. split; [|split].
  - clear Hf. induction values as [|v vs IH]; [reflexivity|].
    cbn [map concat]. rewrite len_app, len_cons, IH.
    unfold len at 1. rewrite be_bytes_length. lia.
  - unfold sha256_to_field. rewrite message_from, Hf. reflexivity.
  - intros vs' E'. rewrite hashed_message_eq in E'.
    destruct (forallb fits32 vs') eqn:Hf'; [|discriminate].
    injection E' as E'. apply encoding_injective; assumption.
Qed.

(** X2 -- [sha256_to_field] returns a field element when every value is in
    [0, 2^256) and raises [OverflowError] otherwise; so [merkle_hash2] raises
    [OverflowError] exactly when an operand is outside [0, 2^256), and never
    raises anything else. *)
Theorem sha256_to_field_overflow (values : list Z) :
  (Forall (fun v => 0 <= v < 2 ^ 256) values ->
     exists p, sha256_to_field sha256 values = Ok p /\ in_field p) /\
  (~ Forall (fun v => 0 <= v < 2 ^ 256) values ->
     sha256_to_field sha256 values = Raise OverflowError) /\
  (forall l r,
     merkle_hash2 sha256 l r = Raise OverflowError <->
     ~ (0 <= l < 2 ^ 256 /\ 0 <= r < 2 ^ 256)) /\
  (forall l r e, merkle_hash2 sha256 l r = Raise e -> e = OverflowError).
Proof.
  assert (forall vs, forallb fits32 vs = true <->
                     Forall (fun v => 0 <= v < 2 ^ 256) vs) as Hall.
  { intros vs. rewrite forallb_forall, Forall_forall.
    split; intros H v Hv; apply fits32_iff, H, Hv. }
  assert (forall vs, sha256_to_field sha256 vs =
            if forallb fits32 vs
            then Ok (from_bytes (sha256 (concat (map (be_bytes 32) vs)))
                     mod FIELD_MODULUS)
            else Raise OverflowError) as Heq.
  { intros vs. unfold sha256_to_field. rewrite message_from.
    destruct (forallb fits32 vs); reflexivity. }
  split; [|split; [|split]].
  - intros Hf. apply Hall in Hf. rewrite Heq, Hf.
    eexists. split; [reflexivity|].
    apply Z.mod_pos_bound, FIELD_MODULUS_pos.
  - intros Hn. rewrite Heq.
    destruct (forallb fits32 values) eqn:Hf; [|reflexivity].
    apply Hall in Hf. contradiction.
  - intros l r. unfold merkle_hash2. rewrite Heq.
    destruct (forallb fits32 [l; r]) eqn:Hf.
    + apply Hall in Hf. inversion_clear Hf as [|? ? Hl Hr'].
      inversion_clear Hr' as [|? ? Hr _].
      split; [discriminate | intros Hn; exfalso; apply Hn; split; assumption].
    + split; [|reflexivity]. intros _ [Hl Hr].
      assert (forallb fits32 [l; r] = true) as Ht
        by (apply Hall; constructor;
            [assumption | constructor; [assumption | constructor]]).
      congruence.
  - intros l r e. unfold merkle_hash2. rewrite Heq.
    destruct (forallb fits32 [l; r]); [discriminate|]. intros [= <-].
    reflexivity.
Qed.

End Encoding.

(** ** Shape of the built tree *)

Lemma log2_up_half n : 1 < n -> Z.log2_up n = Z.log2_up ((n + 1) / 2) + 1.
Proof.
  intros Hn. rewrite (Z.log2_up_eqn n) by lia.
  destruct (Z.eq_dec n 2) as [->|Hne]; [reflexivity|].
  assert (1 < (n + 1) / 2) as Hhalf by (Z.div_mod_to_equations; lia).
  rewrite (Z.log2_up_eqn _ Hhalf).
  set (q := Z.pred ((n + 1) / 2)).
  assert (0 < q) as Hq by (unfold q; lia).
  assert (Z.pred n = 2 * q \/ Z.pred n = 2 * q + 1) as [E|E]
    by (unfold q; Z.div_mod_to_equations; lia); rewrite E.
  - rewrite Z.log2_double by assumption. lia.
  - rewrite Z.log2_succ_double by assumption. lia.
Qed.

Lemma ceil_div_pow2_step n k :
  0 <= n -> 1 <= k ->
  ((n + 1) / 2 + 2 ^ (k - 1) - 1) / 2 ^ (k - 1) = (n + 2 ^ k - 1) / 2 ^ k.
Proof.
  intros Hn Hk.
  assert (0 < 2 ^ (k - 1)) as Hm by (apply Z.pow_pos_nonneg; lia).
  replace (2 ^ k) with (2 * 2 ^ (k - 1))
    by (rewrite <- Z.pow_succ_r by lia; f_equal; lia).
  set (m := 2 ^ (k - 1)) in *.
  replace ((n + 1) / 2 + m - 1) with ((n + 1 + (m - 1) * 2) / 2)
    by (rewrite Z.div_add by lia; lia).
  rewrite Z.div_div by lia. f_equal. lia.
Qed.

Section Shape.

Variable sha256 : list byte -> list byte.

(** A bottom level has one tower. *)
Lemma tower_unique a :
  tower sha256 a -> forall b, tower sha256 b -> hd [] a = hd [] b -> a = b.
Proof.
  induction 1 as [r Hr | level nl upper Hgt Hf Hnl Ht IH];
    intros b Hb Hhd; inversion Hb as [r' Hr' | level' nl' upper' Hgt' Hf' Hnl' Ht'];
    subst b; cbn [hd] in Hhd.
  - congruence.
  - subst level'. change (len [r]) with 1 in Hgt'. lia.
  - subst level. change (len [r']) with 1 in Hgt. lia.
  - subst level'. rewrite Hnl in Hnl'. injection Hnl' as <-.
    f_equal. apply IH; [assumption | reflexivity].
Qed.

Lemma tower_height lvls :
  tower sha256 lvls -> len lvls - 1 = Z.log2_up (len (hd [] lvls)).
Proof.
  induction 1 as [r Hr | level nl upper Hgt Hf Hnl Ht IH]; cbn [hd] in *.
  - reflexivity.
  - rewrite (len_cons level), (log2_up_half Hgt).
    rewrite <- (build_next_level_len _ _ Hnl), <- IH. lia.
Qed.

Lemma tower_level_size lvls :
  tower sha256 lvls ->
  forall k layer, 0 <= k -> getitem lvls k = Ok layer ->
    len layer = (len (hd [] lvls) + 2 ^ k - 1) / 2 ^ k.
Proof.
  induction 1 as [r Hr | level nl upper Hgt Hf Hnl Ht IH];
    intros k layer Hk Hl; cbn [hd] in *.
  - pose proof (getitem_Ok_range _ Hk Hl) as Hlt.
    change (len [[r]]) with 1 in Hlt. assert (k = 0) as -> by lia.
    rewrite getitem_cons_0 in Hl. injection Hl as <-. reflexivity.
  - destruct (Z.eq_dec k 0) as [->|Hne].
    + rewrite getitem_cons_0 in Hl. injection Hl as <-.
      change (2 ^ 0) with 1. rewrite Z.div_1_r. lia.
    + replace k with (k - 1 + 1) in Hl by lia.
      rewrite getitem_cons_succ in Hl by lia.
      rewrite (IH (k - 1) layer) by (assumption || lia).
      rewrite (build_next_level_len _ _ Hnl).
      apply ceil_div_pow2_step; [apply len_nonneg | lia].
Qed.

(** X3 -- Leaves are taken modulo [FIELD_MODULUS]: two leaf sequences that
    agree element by element modulo [FIELD_MODULUS] give the same result of
    construction (the same tree, hence the same root and openings). *)
Theorem construction_modulo_field (leaves1 leaves2 : list Z) :
  Forall2 (fun a b => a mod FIELD_MODULUS = b mod FIELD_MODULUS)
          leaves1 leaves2 ->
  __init__ sha256 leaves1 = __init__ sha256 leaves2.
Proof.
  intros H.
  assert (map field leaves1 = map field leaves2) as Em.
  { induction H as [|a b l1 l2 Hab _ IH]; [reflexivity|].
    cbn [map]. unfold field at 1 3. rewrite Hab, IH. reflexivity. }
  assert (len leaves1 = len leaves2) as El
    by (unfold len; rewrite (Forall2_length H); reflexivity).
  unfold __init__. rewrite El, Em. reflexivity.
Qed.

(** X4 -- The height of a built tree (the length of every opening) is the
    base-2 logarithm of the number of leaves, rounded up; in particular
    [2^height] is at least the number of leaves. *)
Theorem tree_height (leaves0 : list Z) (t : MerkleTree) :
  __init__ sha256 leaves0 = Ok t ->
  height t = Z.log2_up (len leaves0) /\
  len leaves0 <= 2 ^ height t /\
  forall index siblings positions,
    opening t index = Ok (siblings, positions) ->
    len siblings = Z.log2_up (len leaves0) /\
    len positions = Z.log2_up (len leaves0).
Proof.
  intros E. destruct (init_Ok _ _ E) as (Hne & Hleaves & Hhd & Ht).
  assert (height t = Z.log2_up (len leaves0)) as Hh.
  { unfold height. rewrite (tower_height Ht), Hhd.
    unfold len. rewrite length_map. reflexivity. }
  split; [exact Hh|]. split.
  - rewrite Hh.
    assert (0 < len leaves0) as Hpos.
    { destruct leaves0; [congruence|]. rewrite len_cons.
      pose proof (len_nonneg leaves0). lia. }
    destruct (Z.eq_dec (len leaves0) 1) as [->|Hn1]; [reflexivity|].
    apply Z.log2_up_spec. lia.
  - intros index ss ps Hop.
    pose proof (opening_Ok_range _ _ Hop) as Hi.
    rewrite opening_eq_spec in Hop by exact Hi.
    assert (levels t <> []) as Hlv by (inversion Ht; discriminate).
    destruct (opening_spec_len _ Hlv Hop) as [Hs Hp].
    fold (height t) in Hs, Hp. rewrite Hs, Hp, Hh. split; reflexivity.
Qed.

(** X5 -- Level [k] of a built tree over [n] leaves has [ceil(n / 2^k)]
    nodes. *)
Theorem level_sizes (leaves0 : list Z) (t : MerkleTree) (k : Z)
    (layer : list Z) :
  __init__ sha256 leaves0 = Ok t ->
  0 <= k ->
  getitem (levels t) k = Ok layer ->
  len layer = (len leaves0 + 2 ^ k - 1) / 2 ^ k.
Proof.
  intros E Hk Hl. destruct (init_Ok _ _ E) as (_ & _ & Hhd & Ht).
  rewrite (tower_level_size Ht Hk Hl), Hhd.
  unfold len at 1. rewrite length_map. reflexivity.
Qed.

End Shape.

(** ** Positions of an opening *)

Lemma opening_spec_positions_valid lvls :
  forall idx siblings positions,
    opening_spec lvls idx = Ok (siblings, positions) ->
    Forall valid_position positions.
Proof.
  induction lvls as [|layer upper IH]; intros idx ss ps E.
  - injection E as <- <-. constructor.
  - destruct upper as [|layer' upper'].
    + injection E as <- <-. constructor.
    + rewrite opening_spec_step in E.
      apply bind_Ok in E as (sib & _ & E).
      apply bind_Ok in E as ([ss' ps'] & E' & [= <- <-]).
      constructor; [apply mod2_cases | eapply IH; eauto].
Qed.

Section Positions.

Variable sha256 : list byte -> list byte.

Lemma tower_positions_value lvls :
  tower sha256 lvls ->
  forall idx siblings positions,
    0 <= idx < len (hd [] lvls) ->
    opening_spec lvls idx = Ok (siblings, positions) ->
    bits_value positions = idx.
Proof.
  induction 1 as [r Hr | level nl upper Hgt Hf Hnl Ht IH];
    intros idx ss ps Hidx E; cbn [hd] in *.
  - injection E as <- <-. change (len [r]) with 1 in Hidx.
    cbn [bits_value fold_right]. lia.
  - rewrite opening_spec_step in E.
    apply bind_Ok in E as (sib & _ & E).
    apply bind_Ok in E as ([ss' ps'] & E' & [= <- <-]).
    apply IH in E'.
    + unfold bits_value in *. cbn [fold_right]. rewrite E'.
      Z.div_mod_to_equations. lia.
    + rewrite (build_next_level_len _ _ Hnl). Z.div_mod_to_equations. lia.
Qed.

(** X6 -- The positions [opening] returns are bits, and they are the binary
    digits of the leaf index, least significant first: the index can be read
    back from them, so two indices of one tree never share their
    positions. *)
Theorem positions_encode_index (leaves0 : list Z) (t : MerkleTree)
    (index : Z) (siblings positions : list Z) :
  __init__ sha256 leaves0 = Ok t ->
  opening t index = Ok (siblings, positions) ->
  Forall valid_position positions /\
  bits_value positions = index /\
  forall index' siblings',
    opening t index' = Ok (siblings', positions) -> index' = index.
Proof.
  intros E Hop. destruct (init_Ok _ _ E) as (_ & Hleaves & Hhd & Ht).
  assert (forall i ss ps, opening t i = Ok (ss, ps) -> bits_value ps = i)
    as Hval.
  { intros i ss ps Hi.
    pose proof (opening_Ok_range _ _ Hi) as Hr.
    rewrite opening_eq_spec in Hi by exact Hr.
    apply (@tower_positions_value _ Ht i ss ps); [|exact Hi].
    rewrite Hhd, <- Hleaves. exact Hr. }
  split; [|split].
  - pose proof (opening_Ok_range _ _ Hop) as Hr.
    rewrite opening_eq_spec in Hop by exact Hr.
    eapply opening_spec_positions_valid; eauto.
  - eapply Hval; eauto.
  - intros index' ss' Hop'.
    rewrite <- (Hval _ _ _ Hop'), <- (Hval _ _ _ Hop). reflexivity.
Qed.

(** ** Consequences of the duplication policy and of the unprefixed hash *)

Lemma build_next_level_duplicate l x :
  Nat.even (length l) = true ->
  build_next_level sha256 (l ++ [x]) = build_next_level sha256 (l ++ [x; x]).
Proof.
  induction l as [| a | a b l IH] using pair_induction; intros Hev.
  - cbn [app]. rewrite build_next_level_one, build_next_level_two.
    rewrite build_next_level_nil.
    destruct (merkle_hash2 sha256 x x); reflexivity.
  - discriminate.
  - cbn [app]. rewrite !build_next_level_two, IH by exact Hev. reflexivity.
Qed.

Lemma tower_tail level upper :
  tower sha256 (level :: upper) ->
  1 < len level ->
  exists nl upper',
    upper = nl :: upper' /\
    build_next_level sha256 level = Ok nl /\
    tower sha256 (nl :: upper').
Proof.
  intros Ht Hgt. inversion Ht as [r Hr | ? nl upper' _ _ Hnl Ht']; subst.
  - change (len [r]) with 1 in Hgt. lia.
  - eauto.
Qed.

(** After an even, non-empty prefix, one trailing leaf and two equal
    trailing leaves build the same levels above the leaves. *)
Lemma duplicate_levels l x :
  l <> [] ->
  Nat.even (length l) = true ->
  exists nl upper,
    __init__ sha256 (l ++ [x]) =
      Ok (mkMerkleTree (map field l ++ [field x])
            ((map field l ++ [field x]) :: nl :: upper)) /\
    __init__ sha256 (l ++ [x; x]) =
      Ok (mkMerkleTree (map field l ++ [field x; field x])
            ((map field l ++ [field x; field x]) :: nl :: upper)) /\
    tower sha256 ((map field l ++ [field x; field x]) :: nl :: upper).
Proof.
  intros Hne Hev.
  destruct (@init_tower sha256 (l ++ [x])) as (u1 & E1 & T1);
    [destruct l; discriminate|].
  destruct (@init_tower sha256 (l ++ [x; x])) as (u2 & E2 & T2);
    [destruct l; discriminate|].
  assert (2 <= len l) as Hl.
  { destruct l as [|a [|b l']]; [congruence | discriminate |].
    rewrite !len_cons. pose proof (len_nonneg l'). lia. }
  assert (len (map field l) = len l) as Hml
    by (unfold len; rewrite length_map; reflexivity).
  rewrite map_app in E1, T1, E2, T2. cbn [map] in E1, T1, E2, T2.
  destruct (tower_tail T1) as (n1 & v1 & -> & B1 & T1');
    [rewrite len_app, Hml; change (len [field x]) with 1; lia|].
  destruct (tower_tail T2) as (n2 & v2 & -> & B2 & T2');
    [rewrite len_app, Hml; change (len [field x; field x]) with 2; lia|].
  rewrite build_next_level_duplicate in B1
    by (rewrite length_map; exact Hev).
  rewrite B2 in B1. injection B1 as <-.
  pose proof (tower_unique T1' T2' eq_refl) as Eu. injection Eu as <-.
  exists n2, v1. split; [exact E1|]. split; [exact E2 | exact T2].
Qed.

(** X7 -- Hashing a lone trailing node with itself makes two different leaf
    sequences share a root: after an even, non-empty prefix, one trailing
    leaf [x] and two trailing leaves [x, x] give the same levels above the
    leaves and the same root. *)
Theorem duplicated_last_leaf_same_root (l : list Z) (x : Z) :
  l <> [] ->
  Nat.even (length l) = true ->
  exists t1 t2 r,
    __init__ sha256 (l ++ [x]) = Ok t1 /\
    __init__ sha256 (l ++ [x; x]) = Ok t2 /\
    len (leaves t1) + 1 = len (leaves t2) /\
    tl (levels t1) = tl (levels t2) /\
    root t1 = Ok r /\ root t2 = Ok r.
Proof.
  intros Hne Hev.
  destruct (duplicate_levels x Hne Hev) as (nl & upper & E1 & E2 & T2).
  destruct (tower_root T2) as (r & Hr & _).
  eexists _, _, r. split; [exact E1|]. split; [exact E2|].
  cbn [leaves levels tl]. split; [|split; [reflexivity|]].
  - rewrite !len_app.
    change (len [field x]) with 1. change (len [field x; field x]) with 2.
    lia.
  - unfold root. cbn [levels].
    rewrite getitem_neg1_cons in Hr. rewrite !getitem_neg1_cons, Hr.
    split; reflexivity.
Qed.

(** X13 -- The root does not bind the number of leaves: for a tree whose
    last leaf [x] follows an even, non-empty prefix, there are siblings and
    positions spelling the index one past the last leaf (for which [opening]
    raises [IndexError]) along which the walk from [x] reaches the root. *)
Theorem phantom_index_verifies (l : list Z) (x : Z) :
  l <> [] ->
  Nat.even (length l) = true ->
  exists t r siblings positions,
    __init__ sha256 (l ++ [x]) = Ok t /\
    root t = Ok r /\
    opening t (len l + 1) = Raise IndexError /\
    bits_value positions = len l + 1 /\
    len positions = height t /\
    len siblings = height t /\
    forall rec,
      fst (recompute_walk (gadget_of (merkle_hash2 sha256))
             (field x) siblings positions rec) = Ok r.
Proof.
  intros Hne Hev.
  destruct (duplicate_levels x Hne Hev) as (nl & upper & E1 & E2 & T2).
  assert (len (map field l) = len l) as Hml
    by (unfold len; rewrite length_map; reflexivity).
  assert (getitem (map field l ++ [field x; field x]) (len l + 1) =
          Ok (field x)) as Hx.
  { replace (map field l ++ [field x; field x])
      with ((map field l ++ [field x]) ++ field x :: [])
      by (rewrite <- app_assoc; reflexivity).
    replace (len l + 1) with (len (map field l ++ [field x]))
      by (rewrite len_app, Hml; reflexivity).
    apply getitem_app_len. }
  pose proof (len_nonneg l) as Hl0.
  destruct (tower_sound T2) with (idx := len l + 1) (x := field x)
    as (ss & ps & r & Hop & Hre & Hlast); [lia | exact Hx |].
  assert ((map field l ++ [field x; field x]) :: nl :: upper <> []) as Hlv
    by discriminate.
  destruct (opening_spec_len _ Hlv Hop) as [Hs Hp].
  eexists _, r, ss, ps. split; [exact E1|].
  unfold height. cbn [levels leaves].
  split; [|split; [|split; [|split; [|split]]]].
  - unfold root. cbn [levels].
    rewrite getitem_neg1_cons in Hlast. rewrite getitem_neg1_cons, Hlast.
    reflexivity.
  - unfold opening. cbn [leaves]. rewrite len_app, Hml, Z.geb_leb.
    change (len [field x]) with 1.
    destruct (Z.ltb_spec (len l + 1) 0); [reflexivity|].
    destruct (Z.leb_spec (len l + 1) (len l + 1)); [reflexivity | lia].
  - apply (@tower_positions_value _ T2 (len l + 1) ss ps); [|exact Hop].
    cbn [hd]. rewrite len_app, Hml. change (len [field x; field x]) with 2. lia.
  - rewrite Hp, !len_cons. reflexivity.
  - rewrite Hs, !len_cons. reflexivity.
  - intros rec. rewrite recompute_walk_eq by (rewrite Hs, Hp; reflexivity).
    rewrite (recompute_spec_ext _ _
               (poseidon_pair_gadget (merkle_hash2 sha256))).
    exact Hre.
Qed.

(** X8 -- Leaves and inner nodes are hashed alike: the level above the
    leaves of a built tree, given as a leaf sequence, builds the tree made of
    the remaining levels, with the same root. *)
Theorem inner_level_as_leaves (leaves0 : list Z) (t : MerkleTree)
    (level1 : list Z) :
  __init__ sha256 leaves0 = Ok t ->
  getitem (levels t) 1 = Ok level1 ->
  exists t',
    __init__ sha256 level1 = Ok t' /\
    levels t' = tl (levels t) /\
    root t' = root t.
Proof.
  intros E H1. destruct (init_Ok _ _ E) as (_ & _ & _ & Ht).
  destruct (levels t) as [|level0 [|l1 upper]] eqn:Elv.
  - discriminate.
  - apply getitem_Ok_range in H1; [|lia].
    change (len [level0]) with 1 in H1. lia.
  - change 1 with (0 + 1) in H1.
    rewrite getitem_cons_succ, getitem_cons_0 in H1 by lia.
    injection H1 as ->.
    inversion Ht as [| ? ? ? _ _ _ Ht']; subst.
    pose proof (tower_in_field Ht') as Hall.
    inversion_clear Hall as [|? ? Hf1 _].
    assert (map field level1 = level1) as Eid.
    { clear - Hf1. induction Hf1 as [|a l Ha _ IH]; [reflexivity|].
      cbn [map]. rewrite (field_id Ha), IH. reflexivity. }
    assert (level1 <> []) as Hne.
    { intros ->. inversion Ht' as [|? ? ? Hgt].
      change (len (@nil Z)) with 0 in Hgt. lia. }
    destruct (init_tower sha256 Hne) as (upper' & E' & Tw').
    rewrite Eid in E', Tw'.
    pose proof (tower_unique Tw' Ht' eq_refl) as Eu. injection Eu as ->.
    eexists. split; [exact E'|]. cbn [levels tl]. split; [reflexivity|].
    unfold root. rewrite Elv. cbn [levels].
    rewrite getitem_neg1_cons. reflexivity.
Qed.

End Positions.

(** ** The circuit after its checks *)

Section CircuitRuns.

Variable LinComb : Type.
Variable poseidon_circuit_hash : list LinComb -> result (list LinComb).
Variable sub : LinComb -> LinComb -> LinComb.
Variable assert_zero : LinComb -> result unit.

(** With equal lengths and valid positions the circuit is the walk followed,
    when the walk returns, by the assertion. *)
Lemma circuit_after_checks leaf siblings positions public_root rec :
  len siblings = len positions ->
  Forall valid_position positions ->
  exists hashed,
    merkle_opening_circuit poseidon_circuit_hash sub assert_zero
      leaf siblings positions public_root rec =
    match recompute_spec (poseidon_pair poseidon_circuit_hash)
            leaf siblings positions with
    | Ok needle =>
        (assert_zero (sub needle public_root),
         (rec ++ map Hashed hashed) ++
           [AssertedZero (sub needle public_root)])
    | Raise e => (Raise e, rec ++ map Hashed hashed)
    end /\
    (forall v,
       recompute_spec (poseidon_pair poseidon_circuit_hash)
         leaf siblings positions = Ok v ->
       len hashed = len positions).
Proof.
  intros Hlen Hvalid.
  destruct (@recompute_walk_record LinComb poseidon_circuit_hash
              leaf siblings positions rec Hlen) as (hashed & E & Hn).
  exists hashed. split; [|exact Hn].
  unfold merkle_opening_circuit.
  unfold cbind at 1, lift at 1.
  rewrite Hlen, Z.eqb_refl. cbn [py_assert].
  unfold cbind at 1, lift at 1.
  rewrite check_positions_eq.
  apply first_invalid_None with (k := 0%nat) in Hvalid. rewrite Hvalid.
  unfold cbind at 1. rewrite E.
  destruct (recompute_spec _ _ _ _); reflexivity.
Qed.

(** X10 -- When a hash of the walk fails (the gadget raises, or returns an
    empty list so that [parent_hash_list[0]] raises [IndexError]), the
    circuit raises that exception and the root equality is never asserted:
    the backend has been asked for hashes only. *)
Theorem hashing_failure_stops_circuit (leaf : LinComb)
    (siblings : list LinComb) (positions : list Z) (public_root : LinComb)
    (rec : list (event LinComb)) (e : exn) :
  len siblings = len positions ->
  Forall valid_position positions ->
  recompute_spec (poseidon_pair poseidon_circuit_hash)
    leaf siblings positions = Raise e ->
  (forall l r, poseidon_circuit_hash [l; r] = Ok [] ->
     poseidon_pair poseidon_circuit_hash l r = Raise IndexError) /\
  exists hashed,
    merkle_opening_circuit poseidon_circuit_hash sub assert_zero
      leaf siblings positions public_root rec =
    (Raise e, rec ++ map Hashed hashed).
Proof.
  intros Hlen Hvalid Hfail. split.
  - intros l r Hempty. unfold poseidon_pair. rewrite Hempty. reflexivity.
  - destruct (@circuit_after_checks leaf siblings positions public_root rec
                Hlen Hvalid) as (hashed & E & _).
    rewrite Hfail in E. eauto.
Qed.

End CircuitRuns.

Section HonestRun.

Variable sha256 : list byte -> list byte.

(** X9 -- End to end with one hash: on a built tree, the circuit run on a
    leaf, its opening and a public root, with the tree's pair hash as its
    gadget, passes both checks, asks for [height] hashes and then asserts
    that [root() - public_root] is zero; this value is zero exactly when the
    public root is the tree's root. *)
Theorem honest_circuit_run (leaves0 : list Z) (t : MerkleTree) (index : Z)
    (siblings positions : list Z) :
  __init__ sha256 leaves0 = Ok t ->
  opening t index = Ok (siblings, positions) ->
  exists leaf r,
    getitem (leaves t) index = Ok leaf /\
    root t = Ok r /\
    forall (assert_zero : Z -> result unit) (public_root : Z)
           (rec : list (event Z)),
      (r - public_root = 0 <-> public_root = r) /\
      exists hashed,
        len hashed = height t /\
        merkle_opening_circuit (gadget_of (merkle_hash2 sha256))
          Z.sub assert_zero leaf siblings positions public_root rec =
        (assert_zero (r - public_root),
         (rec ++ map Hashed hashed) ++ [AssertedZero (r - public_root)]).
Proof.
  intros E Hop.
  pose proof (opening_Ok_range _ _ Hop) as Hi.
  destruct (init_Ok _ _ E) as (_ & Hleaves & Hhd & Ht).
  destruct (getitem_in_range _ Hi) as [leaf Hleaf].
  rewrite opening_eq_spec in Hop by exact Hi.
  destruct (tower_sound Ht) with (idx := index) (x := leaf)
    as (ss & ps & r & Hop' & Hre & Hlast);
    [lia | rewrite Hhd, <- Hleaves; exact Hleaf |].
  rewrite Hop in Hop'. injection Hop' as <- <-.
  assert (levels t <> []) as Hlv by (inversion Ht; discriminate).
  destruct (opening_spec_len _ Hlv Hop) as [Hs Hp].
  exists leaf, r. split; [exact Hleaf|]. split.
  { unfold root. rewrite Hlast. reflexivity. }
  intros assert_zero public_root rec. split; [lia|].
  destruct (@circuit_after_checks Z (gadget_of (merkle_hash2 sha256)) Z.sub
              assert_zero leaf siblings positions public_root rec)
    as (hashed & Ec & Hn).
  - rewrite Hs, Hp. reflexivity.
  - eapply opening_spec_positions_valid; eauto.
  - rewrite (recompute_spec_ext _ _
               (poseidon_pair_gadget (merkle_hash2 sha256))) in Ec, Hn.
    rewrite Hre in Ec. exists hashed. split; [|exact Ec].
    rewrite (Hn r Hre), Hp. reflexivity.
Qed.

End HonestRun.

(** ** The driver *)

Lemma getitem_map_range {A} (f : Z -> A) n i :
  0 <= i < n -> getitem (map f (range n)) i = Ok (f i).
Proof.
  intros Hi. rewrite getitem_nonneg by lia. unfold range.
  rewrite nth_error_map, nth_error_map.
  rewrite nth_error_seq.
  destruct (Nat.ltb_spec (Z.to_nat i) (Z.to_nat n)) as [_|Hge]; [|lia].
  cbn. rewrite Z2Nat.id by lia. reflexivity.
Qed.

Section DriverRuns.

Variable sha256 : list byte -> list byte.
Variable LinComb : Type.
Variable poseidon_circuit_hash : list LinComb -> result (list LinComb).
Variable sub : LinComb -> LinComb -> LinComb.
Variable assert_zero : LinComb -> result unit.
Variable PrivVal PubVal : Z -> LinComb.
Variable getrandbits128 : nat -> Z.
Variable randrange : Z -> Z.

Lemma generate_random_leaves_len num_leaves :
  len (generate_random_leaves getrandbits128 num_leaves) = Z.max 0 num_leaves.
Proof.
  unfold generate_random_leaves, len, range.
  rewrite !length_map, length_seq. lia.
Qed.

Lemma generate_random_leaves_get num_leaves k :
  0 <= k < num_leaves ->
  0 <= getrandbits128 (Z.to_nat k) < 2 ^ 128 ->
  getitem (generate_random_leaves getrandbits128 num_leaves) k =
  Ok (getrandbits128 (Z.to_nat k)).
Proof.
  intros Hk Hb. unfold generate_random_leaves.
  rewrite getitem_map_range by exact Hk. f_equal.
  apply field_id. unfold in_field.
  assert (2 ^ 128 < FIELD_MODULUS) by reflexivity. lia.
Qed.

(** X11 -- [generate_random_leaves] returns [num_leaves] leaves; every 128-bit
    draw is below [FIELD_MODULUS], so the reduction leaves it unchanged: leaf
    [k] is the [k]-th draw itself. *)
Theorem generated_leaves_are_the_draws (num_leaves : Z) :
  (forall k, (k < Z.to_nat num_leaves)%nat ->
     0 <= getrandbits128 k < 2 ^ 128) ->
  len (generate_random_leaves getrandbits128 num_leaves) = Z.max 0 num_leaves /\
  Forall in_field (generate_random_leaves getrandbits128 num_leaves) /\
  forall k, 0 <= k < num_leaves ->
    getitem (generate_random_leaves getrandbits128 num_leaves) k =
    Ok (getrandbits128 (Z.to_nat k)).
Proof.
  intros Hdraw. split; [apply generate_random_leaves_len|]. split.
  - unfold generate_random_leaves.
    apply Forall_map, Forall_forall. intros; apply field_in_field.
  - intros k Hk. apply generate_random_leaves_get; [exact Hk|].
    apply Hdraw. lia.
Qed.

(** X12 -- The driver: the 16 generated leaves build a tree of height 4, the
    drawn index has an opening of 4 siblings, and the circuit passes its
    checks; it then asks the backend for hashes only and, when the 4 hashes
    return, asserts that the recomputed needle minus [PubVal(root)] is
    zero. *)
Theorem membership_example_run (rec : list (event LinComb)) :
  (forall k, (k < 16)%nat -> 0 <= getrandbits128 k < 2 ^ 128) ->
  0 <= randrange NUM_LEAVES < NUM_LEAVES ->
  exists t r siblings positions hashed,
    __init__ sha256 (generate_random_leaves getrandbits128 NUM_LEAVES) = Ok t /\
    height t = 4 /\
    root t = Ok r /\
    opening t (randrange NUM_LEAVES) = Ok (siblings, positions) /\
    len siblings = 4 /\
    let leaf := getrandbits128 (Z.to_nat (randrange NUM_LEAVES)) in
    let walk := recompute_spec (poseidon_pair poseidon_circuit_hash)
                  (PrivVal leaf) (map PrivVal siblings) positions in
    merkle_membership_example sha256 poseidon_circuit_hash sub assert_zero
      PrivVal PubVal getrandbits128 randrange rec =
    match walk with
    | Ok needle =>
        (assert_zero (sub needle (PubVal r)),
         (rec ++ map Hashed hashed) ++
           [AssertedZero (sub needle (PubVal r))])
    | Raise e => (Raise e, rec ++ map Hashed hashed)
    end /\
    (forall needle, walk = Ok needle -> len hashed = 4).
Proof.
  intros Hdraw Hidx.
  set (index := randrange NUM_LEAVES) in *.
  set (lvs := generate_random_leaves getrandbits128 NUM_LEAVES).
  pose proof (generate_random_leaves_len NUM_LEAVES) as Hlen.
  assert (getitem lvs index = Ok (getrandbits128 (Z.to_nat index))) as Hget.
  { apply generate_random_leaves_get; [exact Hidx|].
    apply Hdraw. unfold NUM_LEAVES in Hidx. lia. }
  fold lvs in Hlen. change (Z.max 0 NUM_LEAVES) with 16 in Hlen.
  assert (lvs <> []) as Hne.
  { intros Hnil. rewrite Hnil in Hlen. discriminate Hlen. }
  destruct (init_tower sha256 Hne) as (upper & Einit & _).
  set (t := mkMerkleTree (map field lvs) (map field lvs :: upper)) in *.
  destruct (init_Ok _ _ Einit) as (_ & Hleaves & Hhd & Ht).
  pose proof (init_len _ _ Einit) as Hll.
  assert (height t = 4) as Hh.
  { unfold height. rewrite (tower_height Ht), Hhd, <- Hleaves, Hll, Hlen.
    reflexivity. }
  destruct (tower_root Ht) as (r & Hlast & _).
  assert (root t = Ok r) as Hroot by (unfold root; rewrite Hlast; reflexivity).
  destruct (@built_opening sha256 lvs t index Einit)
    as (ss & ps & Hop & Hspec); [rewrite Hll, Hlen; exact Hidx|].
  assert (levels t <> []) as Hlv by (inversion Ht; discriminate).
  destruct (opening_spec_len _ Hlv Hspec) as [Hs Hp].
  fold (height t) in Hs, Hp. rewrite Hh in Hs, Hp.
  destruct (@circuit_after_checks LinComb poseidon_circuit_hash sub
              assert_zero
              (PrivVal (getrandbits128 (Z.to_nat index)))
              (map PrivVal ss) ps (PubVal r) rec)
    as (hashed & Ec & Hn).
  { unfold len at 1. rewrite length_map. fold (len ss). lia. }
  { eapply opening_spec_positions_valid; eauto. }
  exists t, r, ss, ps, hashed.
  split; [exact Einit|]. split; [exact Hh|]. split; [exact Hroot|].
  split; [exact Hop|]. split; [exact Hs|].
  cbv zeta. split.
  - unfold merkle_membership_example. fold lvs. cbv zeta.
    unfold cbind at 1, lift at 1. rewrite Einit.
    unfold cbind at 1, lift at 1. rewrite Hroot.
    unfold cbind at 1, lift at 1. fold index. rewrite Hget.
    unfold cbind at 1, lift at 1. rewrite Hop.
    exact Ec.
  - intros needle Hw. rewrite (Hn needle Hw). exact Hp.
Qed.

End DriverRuns.

(** ** Instances of the further properties *)

Lemma hashed_message_injective_witness :
  hashed_message [1; 2] = Ok (be_bytes 32 1 ++ be_bytes 32 2) /\
  len (be_bytes 32 1 ++ be_bytes 32 2) = 32 * len [1; 2] /\
  sha256_to_field SHA256.digest [1; 2] =
    Ok (from_bytes (SHA256.digest (be_bytes 32 1 ++ be_bytes 32 2))
        mod FIELD_MODULUS) /\
  forall values',
    hashed_message values' = Ok (be_bytes 32 1 ++ be_bytes 32 2) ->
    values' = [1; 2].
Proof.
  assert (H : hashed_message [1; 2] = Ok (be_bytes 32 1 ++ be_bytes 32 2))
    by (vm_compute; reflexivity).
  split; [exact H|].
  exact (@hashed_message_injective SHA256.digest [1; 2] _ H).
Defined.

Lemma construction_modulo_field_witness :
  Forall2 (fun a b => a mod FIELD_MODULUS = b mod FIELD_MODULUS)
    [1 + FIELD_MODULUS; 2; 3 - FIELD_MODULUS] [1; 2; 3] /\
  __init__ SHA256.digest [1 + FIELD_MODULUS; 2; 3 - FIELD_MODULUS] =
  __init__ SHA256.digest [1; 2; 3].
Proof.
  assert (H : Forall2 (fun a b => a mod FIELD_MODULUS = b mod FIELD_MODULUS)
                [1 + FIELD_MODULUS; 2; 3 - FIELD_MODULUS] [1; 2; 3]).
  { constructor; [reflexivity|]. constructor; [reflexivity|].
    constructor; [reflexivity | constructor]. }
  split; [exact H|].
  exact (@construction_modulo_field SHA256.digest _ _ H).
Defined.

Lemma tree_height_witness :
  __init__ SHA256.digest [1; 2; 3] = Ok tree123 /\
  height tree123 = Z.log2_up (len [1; 2; 3]) /\
  len [1; 2; 3] <= 2 ^ height tree123 /\
  forall index siblings positions,
    opening tree123 index = Ok (siblings, positions) ->
    len siblings = Z.log2_up (len [1; 2; 3]) /\
    len positions = Z.log2_up (len [1; 2; 3]).
Proof.
  assert (H1 : __init__ SHA256.digest [1; 2; 3] = Ok tree123)
    by (vm_compute; reflexivity).
  split; [exact H1|].
  exact (@tree_height SHA256.digest [1; 2; 3] tree123 H1).
Defined.

Lemma level_sizes_witness :
  __init__ SHA256.digest [1; 2; 3] = Ok tree123 /\
  0 <= 1 /\
  getitem (levels tree123) 1 = Ok [h12; h33] /\
  len [h12; h33] = (len [1; 2; 3] + 2 ^ 1 - 1) / 2 ^ 1.
Proof.
  assert (H1 : __init__ SHA256.digest [1; 2; 3] = Ok tree123)
    by (vm_compute; reflexivity).
  assert (H2 : 0 <= 1) by (apply Z.leb_le; reflexivity).
  assert (H3 : getitem (levels tree123) 1 = Ok [h12; h33]) by reflexivity.
  split; [exact H1|]. split; [exact H2|]. split; [exact H3|].
  exact (@level_sizes SHA256.digest [1; 2; 3] tree123 1 [h12; h33] H1 H2 H3).
Defined.

Lemma positions_encode_index_witness :
  __init__ SHA256.digest [1; 2; 3] = Ok tree123 /\
  opening tree123 2 = Ok ([3; h12], [0; 1]) /\
  Forall valid_position [0; 1] /\
  bits_value [0; 1] = 2 /\
  forall index' siblings',
    opening tree123 index' = Ok (siblings', [0; 1]) -> index' = 2.
Proof.
  assert (H1 : __init__ SHA256.digest [1; 2; 3] = Ok tree123)
    by (vm_compute; reflexivity).
  assert (H2 : opening tree123 2 = Ok ([3; h12], [0; 1]))
    by (vm_compute; reflexivity).
  split; [exact H1|]. split; [exact H2|].
  exact (@positions_encode_index SHA256.digest [1; 2; 3] tree123 2
           [3; h12] [0; 1] H1 H2).
Defined.

Lemma duplicated_last_leaf_same_root_witness :
  [1; 2] <> [] /\ Nat.even (length [1; 2]) = true /\
  exists t1 t2 r,
    __init__ SHA256.digest ([1; 2] ++ [3]) = Ok t1 /\
    __init__ SHA256.digest ([1; 2] ++ [3; 3]) = Ok t2 /\
    len (leaves t1) + 1 = len (leaves t2) /\
    tl (levels t1) = tl (levels t2) /\
    root t1 = Ok r /\ root t2 = Ok r.
Proof.
  assert (H1 : [1; 2] <> []) by discriminate.
  assert (H2 : Nat.even (length [1; 2]) = true) by reflexivity.
  split; [exact H1|]. split; [exact H2|].
  exact (@duplicated_last_leaf_same_root SHA256.digest [1; 2] 3 H1 H2).
Defined.

Lemma phantom_index_verifies_witness :
  [1; 2] <> [] /\ Nat.even (length [1; 2]) = true /\
  exists t r siblings positions,
    __init__ SHA256.digest ([1; 2] ++ [3]) = Ok t /\
    root t = Ok r /\
    opening t (len [1; 2] + 1) = Raise IndexError /\
    bits_value positions = len [1; 2] + 1 /\
    len positions = height t /\
    len siblings = height t /\
    forall rec,
      fst (recompute_walk (gadget_of (merkle_hash2 SHA256.digest))
             (field 3) siblings positions rec) = Ok r.
Proof.
  assert (H1 : [1; 2] <> []) by discriminate.
  assert (H2 : Nat.even (length [1; 2]) = true) by reflexivity.
  split; [exact H1|]. split; [exact H2|].
  exact (@phantom_index_verifies SHA256.digest [1; 2] 3 H1 H2).
Defined.

(** The run behind the instance above: index 3 is not a leaf of the tree over
    [1, 2, 3], yet its path verifies. *)
Example phantom_run_tree123 :
  opening tree123 3 = Raise IndexError /\
  fst (recompute_walk (gadget_of (merkle_hash2 SHA256.digest))
         3 [3; h12] [1; 1] []) = Ok root123.
Proof. split; vm_compute; reflexivity. Qed.

Lemma inner_level_as_leaves_witness :
  __init__ SHA256.digest [1; 2; 3] = Ok tree123 /\
  getitem (levels tree123) 1 = Ok [h12; h33] /\
  exists t',
    __init__ SHA256.digest [h12; h33] = Ok t' /\
    levels t' = tl (levels tree123) /\
    root t' = root tree123.
Proof.
  assert (H1 : __init__ SHA256.digest [1; 2; 3] = Ok tree123)
    by (vm_compute; reflexivity).
  assert (H2 : getitem (levels tree123) 1 = Ok [h12; h33]) by reflexivity.
  split; [exact H1|]. split; [exact H2|].
  exact (@inner_level_as_leaves SHA256.digest [1; 2; 3] tree123 [h12; h33]
           H1 H2).
Defined.

Lemma honest_circuit_run_witness :
  __init__ SHA256.digest [1; 2; 3] = Ok tree123 /\
  opening tree123 2 = Ok ([3; h12], [0; 1]) /\
  exists leaf r,
    getitem (leaves tree123) 2 = Ok leaf /\
    root tree123 = Ok r /\
    forall (assert_zero : Z -> result unit) (public_root : Z)
           (rec : list (event Z)),
      (r - public_root = 0 <-> public_root = r) /\
      exists hashed,
        len hashed = height tree123 /\
        merkle_opening_circuit (gadget_of (merkle_hash2 SHA256.digest))
          Z.sub assert_zero leaf [3; h12] [0; 1] public_root rec =
        (assert_zero (r - public_root),
         (rec ++ map Hashed hashed) ++ [AssertedZero (r - public_root)]).
Proof.
  assert (H1 : __init__ SHA256.digest [1; 2; 3] = Ok tree123)
    by (vm_compute; reflexivity).
  assert (H2 : opening tree123 2 = Ok ([3; h12], [0; 1]))
    by (vm_compute; reflexivity).
  split; [exact H1|]. split; [exact H2|].
  exact (@honest_circuit_run SHA256.digest [1; 2; 3] tree123 2
           [3; h12] [0; 1] H1 H2).
Defined.

Lemma hashing_failure_stops_circuit_witness :
  len [2] = len [0] /\
  Forall valid_position [0] /\
  recompute_spec (poseidon_pair (fun _ : list Z => Ok [])) 1 [2] [0] =
    Raise IndexError /\
  (forall l r : Z, (fun _ : list Z => Ok (@nil Z)) [l; r] = Ok [] ->
     poseidon_pair (fun _ : list Z => Ok []) l r = Raise IndexError) /\
  exists hashed,
    merkle_opening_circuit (fun _ : list Z => Ok []) Z.sub (fun _ => Ok tt)
      1 [2] [0] 0 [] =
    (Raise IndexError, [] ++ map Hashed hashed).
Proof.
  assert (H1 : len [2] = len [0]) by reflexivity.
  assert (H2 : Forall valid_position [0])
    by (constructor; [left; reflexivity | constructor]).
  assert (H3 : recompute_spec (poseidon_pair (fun _ : list Z => Ok []))
                 1 [2] [0] = Raise IndexError) by reflexivity.
  split; [exact H1|]. split; [exact H2|]. split; [exact H3|].
  exact (@hashing_failure_stops_circuit Z (fun _ => Ok []) Z.sub
           (fun _ => Ok tt) 1 [2] [0] 0 [] IndexError H1 H2 H3).
Defined.

(** Sixteen 128-bit draws and a drawn index, for the driver. *)
Definition draws (k : nat) : Z := 2 ^ 127 + Z.of_nat k.

Lemma draws_128 : forall k, (k < 16)%nat -> 0 <= draws k < 2 ^ 128.
Proof.
  intros k Hk. unfold draws.
  assert (2 ^ 127 = 170141183460469231731687303715884105728) as ->
    by reflexivity.
  assert (2 ^ 128 = 340282366920938463463374607431768211456) as ->
    by reflexivity.
  lia.
Defined.

Lemma generated_leaves_are_the_draws_witness :
  (forall k, (k < Z.to_nat 16)%nat -> 0 <= draws k < 2 ^ 128) /\
  len (generate_random_leaves draws 16) = Z.max 0 16 /\
  Forall in_field (generate_random_leaves draws 16) /\
  forall k, 0 <= k < 16 ->
    getitem (generate_random_leaves draws 16) k = Ok (draws (Z.to_nat k)).
Proof.
  split; [exact draws_128|].
  exact (@generated_leaves_are_the_draws draws 16 draws_128).
Defined.

Lemma membership_example_run_witness :
  (forall k, (k < 16)%nat -> 0 <= draws k < 2 ^ 128) /\
  0 <= (fun _ : Z => 5) NUM_LEAVES < NUM_LEAVES /\
  exists t r siblings positions hashed,
    __init__ SHA256.digest (generate_random_leaves draws NUM_LEAVES) = Ok t /\
    height t = 4 /\
    root t = Ok r /\
    opening t 5 = Ok (siblings, positions) /\
    len siblings = 4 /\
    let leaf := draws (Z.to_nat 5) in
    let walk := recompute_spec
                  (poseidon_pair (gadget_of (merkle_hash2 SHA256.digest)))
                  leaf (map (fun v : Z => v) siblings) positions in
    merkle_membership_example SHA256.digest
      (gadget_of (merkle_hash2 SHA256.digest)) Z.sub (fun _ => Ok tt)
      (fun v => v) (fun v => v) draws (fun _ => 5) [] =
    match walk with
    | Ok needle =>
        ((fun _ : Z => Ok tt) (needle - r),
         ([] ++ map Hashed hashed) ++ [AssertedZero (needle - r)])
    | Raise e => (Raise e, [] ++ map Hashed hashed)
    end /\
    (forall needle, walk = Ok needle -> len hashed = 4).
Proof.
  assert (H2 : 0 <= (fun _ : Z => 5) NUM_LEAVES < NUM_LEAVES)
    by (split; [apply Z.leb_le | apply Z.ltb_lt]; reflexivity).
  split; [exact draws_128|]. split; [exact H2|].
  exact (@membership_example_run SHA256.digest Z
           (gadget_of (merkle_hash2 SHA256.digest)) Z.sub (fun _ => Ok tt)
           (fun v => v) (fun v => v) draws (fun _ => 5) [] draws_128 H2).
Defined.

(** The driver on these draws, with the tree's hash as gadget: four hashes,
    then the assertion on zero. *)
Example membership_example_on_draws :
  exists h1 h2 h3 h4,
    merkle_membership_example SHA256.digest
      (gadget_of (merkle_hash2 SHA256.digest)) Z.sub (fun _ => Ok tt)
      (fun v => v) (fun v => v) draws (fun _ => 5) [] =
    (Ok tt, [Hashed h1; Hashed h2; Hashed h3; Hashed h4; AssertedZero 0]).
Proof. do 4 eexists. vm_compute. reflexivity. Qed.
